(** * Metropolis-coupled search: hub, chains and the rank exchange

    A shallow embedding of [metropolis.go] (both revisions under [src/]):
    the [State] methods, a chain's loop body, the hub's collection loop,
    its single adjacent-pair exchange pass and the resume step, followed by
    the properties of the protocol. *)

From Stdlib Require Import ZArith QArith Lia Sorted Permutation.
From stdpp Require Import base option list gmap strings pretty.

Close Scope Q_scope.
Local Open Scope Z_scope.

(** * Part I: the program *)

(** ** Machine integers *)

(** Go's [int32]: a mathematical integer kept in [-2^31, 2^31) by wrapping
    every arithmetic result modulo [2^32]. *)
Module Int32.

Definition min_int : Z := -2147483648.
Definition max_int : Z := 2147483647.

Definition wrap (z : Z) : Z := (z + 2147483648) mod 4294967296 - 2147483648.

Definition in_range (z : Z) : Prop := min_int <= z <= max_int.

End Int32.

(** ** Program constants *)

(** The two revisions of the program differ in their constants only: the
    number searched for, the width and centre of the mutation, and the
    heat ladder.  [Heat] holds the decimal constants of the source as
    rationals; the comparison of two finite floats is the comparison of
    the numbers they denote. *)
Record Program := mkProgram {
  TARGET : Z;           (* 500 - s.World          /  50000 - s.World     *)
  SPAN : Z;             (* rand.Int31n(100000)    /  rand.Int31n(100)    *)
  SHIFT : Z;            (* ... - 50000            /  ... - 50            *)
  THREADS : nat;        (* const THREADS = 6 *)
  Heat : list Q         (* var Heat = [...]float64{ ... } *)
}.

Definition metropolis_go : Program :=
  {| TARGET := 500; SPAN := 100000; SHIFT := 50000; THREADS := 6;
     Heat := [0; 1 # 100000; 1 # 10000; 5 # 10000; 1 # 1000; 1 # 100]%Q |}.

Definition part_000 : Program :=
  {| TARGET := 50000; SPAN := 100; SHIFT := 50; THREADS := 6;
     Heat := [0; 1 # 100000; 5 # 10000; 5 # 1000; 5 # 100; 5 # 10]%Q |}.

(** The ladder of the specification's scenario: heats 0, 0.5 and 1. *)
Definition scenario : Program :=
  {| TARGET := 50000; SPAN := 100; SHIFT := 50; THREADS := 3;
     Heat := [0; 1 # 2; 1]%Q |}.

(** ** State *)

(** [type State struct { Score int32; World int32 }] *)
Record State := mkState { Score : Z; World : Z }.

Definition State_in_range (s : State) : Prop :=
  Int32.in_range (Score s) /\ Int32.in_range (World s).

Global Instance State_eq_dec : EqDecision State.
Proof. solve_decision. Defined.

(** One call of [rand.Int31n] and one of [rand.Float64], as a chain makes
    them in one iteration.  [math/rand] promises [0 <= int31n < n] and
    [0 <= float64 < 1]. *)
Record Draw := mkDraw { int31n : Z; float64 : Q }.

Definition Draw_ok (P : Program) (d : Draw) : Prop :=
  0 <= int31n d < SPAN P /\ (0 <= float64 d)%Q /\ (float64 d < 1)%Q.

Section Methods.
Variable P : Program.

(** [func (s *State) SetScore()]:
    [s.Score = TARGET - s.World; if s.Score < 0 { s.Score *= -1 }] *)
Definition SetScore (s : State) : State :=
  let s := {| Score := Int32.wrap (TARGET P - World s); World := World s |} in
  if Score s <? 0
  then {| Score := Int32.wrap (Score s * -1); World := World s |}
  else s.

(** [func (s *State) Mutate()]: [s.World += rand.Int31n(SPAN) - SHIFT],
    with [n] the value [rand.Int31n] returned. *)
Definition Mutate (n : Z) (s : State) : State :=
  {| Score := Score s; World := Int32.wrap (World s + Int32.wrap (n - SHIFT P)) |}.

(** [func NewState() *State]: [new(State)] is the zero value. *)
Definition NewState : State := SetScore {| Score := 0; World := 0 |}.

(** The score as a function of the payload alone: the distance
    [SetScore] computes for a state whose [World] is [w]. *)
Definition scoring_function (w : Z) : Z :=
  let dist := Int32.wrap (TARGET P - w) in
  if dist <? 0 then Int32.wrap (dist * -1) else dist.

(** A state whose score is the one its payload deserves. *)
Definition consistent (s : State) : Prop := Score s = scoring_function (World s).

(** ** Chain *)

(** [r > h] on floats. *)
Definition Qgtb (r h : Q) : bool := negb (Qle_bool r h).

(** One iteration of [chain(index)]'s loop, from the receive of
    [my_state] to the value sent back.  [old_state := *my_state] is a
    copy by value; the revert ([*my_state = old_state] in one revision,
    [my_state = &old_state] in the other) makes the reported state equal
    to that copy.  [&&] evaluates [rand.Float64() > Heat[index]] only
    when the score got worse; [None] is the panic of an index outside
    [Heat]. *)
Definition chain (index : nat) (d : Draw) (my_state : State) : option State :=
  let old_state := my_state in
  let my_state := Mutate (int31n d) my_state in
  let my_state := SetScore my_state in
  if Score my_state >? Score old_state then
    h ← Heat P !! index;
    if Qgtb (float64 d) h then Some old_state else Some my_state
  else Some my_state.

(** The candidate of an iteration: the received state mutated and
    rescored. *)
Definition candidate (d : Draw) (s : State) : State :=
  SetScore (Mutate (int31n d) s).

End Methods.

(** ** Chain, through pointers *)

Module Pointers.

(** A [*State] is the address of an allocated [State]; the heap holds the
    contents behind every address in use. *)
Abbreviation heap := (gmap nat State).

Section Chain.
Variable P : Program.

(** A method with a pointer receiver updates the state behind the
    pointer; [None] is the dereference of a pointer to nothing. *)
Definition call (method : State -> State) (s : nat) (h : heap) : option heap :=
  st ← h !! s; Some (<[s := method st]> h).

(** The loop body of [chain] in [metropolis.go]: the revert
    [*my_state = old_state] writes the saved copy back through the
    pointer, and the pointer received is the pointer reported. *)
Definition chain_metropolis_go (index : nat) (d : Draw) (my_state : nat) (h : heap)
  : option (nat * heap) :=
  old_state ← h !! my_state;
  h ← call (Mutate P (int31n d)) my_state h;
  h ← call (SetScore P) my_state h;
  cur ← h !! my_state;
  if Score cur >? Score old_state then
    ht ← Heat P !! index;
    if Qgtb (float64 d) ht
    then Some (my_state, <[my_state := old_state]> h)
    else Some (my_state, h)
  else Some (my_state, h).

(** The loop body of [chain] in the other revision: the revert
    [my_state = &old_state] reports the address of the copy, a variable
    of this iteration that lives on the heap because its address
    escapes. *)
Definition chain_part_000 (index : nat) (d : Draw) (my_state : nat) (h : heap)
  : option (nat * heap) :=
  st ← h !! my_state;
  let old_state := fresh (dom h) in
  let h := <[old_state := st]> h in
  h ← call (Mutate P (int31n d)) my_state h;
  h ← call (SetScore P) my_state h;
  cur ← h !! my_state;
  old ← h !! old_state;
  if Score cur >? Score old then
    ht ← Heat P !! index;
    if Qgtb (float64 d) ht
    then Some (old_state, h)
    else Some (my_state, h)
  else Some (my_state, h).

End Chain.
End Pointers.

(** ** Hub *)

Section Exchange.
Context {A : Type} (score : A -> Z).

(** The exchange works on whatever the slots hold ([*State] in the
    source) and reads nothing but the score behind each slot. *)

(** Body of the exchange loop at index [n]:
    [if sp[n].Score > sp[n+1].Score { sp[n], sp[n+1] = sp[n+1], sp[n] }].
    The tuple assignment reads both operands before it stores either.
    [None] is the panic of an index out of range. *)
Definition exchange_at (state_pointers : list A) (n : nat) : option (list A) :=
  a ← state_pointers !! n;
  b ← state_pointers !! (n + 1)%nat;
  if score a >? score b
  then Some (<[(n + 1)%nat := a]> (<[n := b]> state_pointers))
  else Some state_pointers.

(** [for n := ...; n < THREADS - 1; n++], with [count] iterations left. *)
Fixpoint exchange_loop (n count : nat) (state_pointers : list A) : option (list A) :=
  match count with
  | O => Some state_pointers
  | S count' =>
      state_pointers ← exchange_at state_pointers n;
      exchange_loop (S n) count' state_pointers
  end.

Definition exchange (THREADS : nat) (state_pointers : list A) : option (list A) :=
  exchange_loop 0 (THREADS - 1) state_pointers.

(** The pass as the specification words it: walk the slots from left to
    right carrying the current slot's value; at each neighbour, leave the
    smaller score behind and carry the other on ([x] stays in hand
    exactly when it is strictly worse than the neighbour). *)
Fixpoint carry (x : A) (rest : list A) : list A :=
  match rest with
  | [] => [x]
  | y :: rest' =>
      if score x >? score y then y :: carry x rest' else x :: carry y rest'
  end.

Definition adjacent_pass (slots : list A) : list A :=
  match slots with
  | [] => []
  | x :: rest => carry x rest
  end.

(** Non-decreasing scores, slot by slot. *)
Definition ascending (slots : list A) : Prop :=
  Sorted (fun a b => score a <= score b) slots.

End Exchange.

(** An unbuffered channel of the hub, seen between two rounds: the value
    its sender is blocked on, if any. *)
Definition chan : Type := option State.

(** [<- ReportChan[n]]: takes the offered value and leaves the channel
    empty.  [None]: no such channel, or nothing is offered and the
    receiver would block. *)
Definition recv (chans : list chan) (n : nat) : option (State * list chan) :=
  match chans !! n with
  | Some (Some s) => Some (s, <[n := None]> chans)
  | _ => None
  end.

(** How the hub's collection loop ends. *)
Inductive collected :=
| Found (n : nat) (s : State) (ReportChan : list chan)
| Collected (state_pointers : list State) (ReportChan : list chan).

(** [for n := ...; n < THREADS; n++ { state_pointers[n] = <- ReportChan[n];
    if state_pointers[n].Score == 0 { ...; return } }].
    Slot [n] is stored when the slots below it have been, so the array is
    built by appending. *)
Fixpoint collect (n count : nat) (state_pointers : list State) (ReportChan : list chan)
  : option collected :=
  match count with
  | O => Some (Collected state_pointers ReportChan)
  | S count' =>
      '(s, ReportChan) ← recv ReportChan n;
      let state_pointers := state_pointers ++ [s] in
      if Score s =? 0 then Some (Found n s ReportChan)
      else collect (S n) count' state_pointers ReportChan
  end.

(** [for n := 0; n < THREADS; n++ { ResumeChan[n] <- state_pointers[n] }]:
    the values handed to the chains, in slot order. *)
Definition resume (THREADS : nat) (state_pointers : list State) : option (list State) :=
  mapM (fun n => state_pointers !! n) (seq 0 THREADS).

(** How one turn of the hub's [for { }] ends: it returned from [hub] with
    the state it printed, or it released the chains for the next round. *)
Inductive outcome :=
| Success (n : nat) (s : State) (ReportChan : list chan)
| Resume (slots : list State).

Definition hub_round (THREADS : nat) (ReportChan : list chan) : option outcome :=
  c ← collect 0 THREADS [] ReportChan;
  match c with
  | Found n s ReportChan => Some (Success n s ReportChan)
  | Collected state_pointers _ =>
      state_pointers ← exchange Score THREADS state_pointers;
      Resume <$> resume THREADS state_pointers
  end.

Definition nonzero (s : State) : Prop := Score s <> 0.

(** The report channels in the middle of a collection: the first
    [received] have been emptied, the others still hold the report
    their chain is blocked on. *)
Definition pending (received : nat) (waiting : list State) : list chan :=
  replicate received None ++ (Some <$> waiting).

(** ** The whole protocol *)

Section Protocol.
Variable P : Program.

(** [main]: one [NewState()] per chain. *)
Definition main_slots : list State := replicate (THREADS P) (NewState P).

(** Every chain takes the state of its slot, runs one iteration with its
    own draws and offers the result on its report channel. *)
Fixpoint chains_from (index : nat) (slots : list State) (draws : list Draw)
  : option (list State) :=
  match slots, draws with
  | [], _ => Some []
  | s :: slots', d :: draws' =>
      s' ← chain P index d s;
      reports ← chains_from (S index) slots' draws';
      Some (s' :: reports)
  | _ :: _, [] => None
  end.

Definition chains (slots : list State) (draws : list Draw) : option (list State) :=
  chains_from 0 slots draws.

(** One round: the chains step, the hub collects, exchanges, resumes. *)
Definition round (slots : list State) (draws : list Draw) : option outcome :=
  reports ← chains slots draws;
  hub_round (THREADS P) (Some <$> reports).

(** The hub's endless loop, for as many rounds as there are draws. *)
Fixpoint run (slots : list State) (rounds : list (list Draw)) : option outcome :=
  match rounds with
  | [] => Some (Resume slots)
  | draws :: rounds' =>
      o ← round slots draws;
      match o with
      | Success _ _ _ => Some o
      | Resume slots' => run slots' rounds'
      end
  end.

(** The slot contents the protocol can reach at the start of a round. *)
Inductive reachable : list State -> Prop :=
| reachable_main : reachable main_slots
| reachable_round slots draws slots' :
    reachable slots ->
    round slots draws = Some (Resume slots') ->
    reachable slots'.

End Protocol.

(** ** Example data *)

(** The scenario of three reported states with scores 5, 3 and 8, for the
    target 500. *)
Definition s5 : State := {| Score := 5; World := 495 |}.
Definition s3 : State := {| Score := 3; World := 497 |}.
Definition s8 : State := {| Score := 8; World := 492 |}.

(** Three states in descending order of score. *)
Definition descending3 : list State :=
  [ {| Score := 3; World := 497 |};
    {| Score := 2; World := 498 |};
    {| Score := 1; World := 499 |} ].

(** Six states in ascending order, two pairs of them with equal scores. *)
Definition ascending6 : list State :=
  [ {| Score := 1; World := 499 |}; {| Score := 1; World := 501 |};
    {| Score := 4; World := 496 |}; {| Score := 7; World := 493 |};
    {| Score := 7; World := 507 |}; {| Score := 9; World := 491 |} ].

(** Six states in no particular order. *)
Definition mixed6 : list State :=
  [ {| Score := 9; World := 491 |}; {| Score := 2; World := 498 |};
    {| Score := 7; World := 493 |}; {| Score := 7; World := 507 |};
    {| Score := 1; World := 499 |}; {| Score := 4; World := 496 |} ].

(** The payload at distance [-2^31] from the target, in each revision. *)
Definition far_state_metropolis_go : State := {| Score := 0; World := -2147483148 |}.
Definition far_state_part_000 : State := {| Score := 0; World := -2147433648 |}.

(** The start of the search: payload 0. *)
Definition start : State := NewState metropolis_go.

(** [rand.Int31n] returns 0 and [rand.Float64] returns 0. *)
Definition zero_draw : Draw := {| int31n := 0; float64 := 0 |}.

(** A worsening mutation and a roll in the middle of the range. *)
Definition worse_draw : Draw := {| int31n := 0; float64 := 1 # 2 |}.

(** A first round of [metropolis.go] in which chain 0 hits the target and
    the other chains move to payload 10. *)
Definition lucky_draws : list Draw :=
  {| int31n := 50500; float64 := 1 # 2 |}
  :: replicate 5 {| int31n := 50010; float64 := 1 # 2 |}.

Definition hit : State := {| Score := 0; World := 500 |}.
Definition near : State := {| Score := 490; World := 10 |}.

(** A first round of [metropolis.go] in which every chain moves to
    payload 10. *)
Definition plain_draws : list Draw :=
  replicate 6 {| int31n := 50010; float64 := 1 # 2 |}.

(** A state of [metropolis.go] below the target, with its score. *)
Definition below (w : Z) : State := {| Score := 500 - w; World := w |}.

(** Five chains at the start and the hottest one at payload [w]. *)
Definition trailing (w : Z) : list State := replicate 5 start ++ [below w].

(** Every chain draws [n] from [rand.Int31n] and 0.005 from
    [rand.Float64]: a roll only the hottest chain accepts on. *)
Definition warm_draw (n : Z) : Draw := {| int31n := n; float64 := 1 # 200 |}.
Definition warm_draws (n : Z) : list Draw := replicate 6 (warm_draw n).

(** 42949 rounds of the largest step down, and a last step onto the
    payload at distance [-2^31]. *)
Definition descent : list (list Draw) :=
  replicate (Z.to_nat 42949) (warm_draws 0) ++ [warm_draws 16852].

Definition far_scored : State := {| Score := -2147483648; World := -2147483148 |}.

(** ** Repeated exchange *)

Section MoreExchange.
Context {A : Type} (score : A -> Z).

(** [rounds] exchange passes in a row, the slots untouched in between. *)
Fixpoint exchanges (THREADS rounds : nat) (state_pointers : list A) : option (list A) :=
  match rounds with
  | O => Some state_pointers
  | S rounds' =>
      state_pointers ← exchange score THREADS state_pointers;
      exchanges THREADS rounds' state_pointers
  end.

(** The last [k] slots are in ascending order and hold the worst states. *)
Definition sorted_tail (k : nat) (l : list A) : Prop :=
  exists front back,
    l = front ++ back /\ length back = Nat.min k (length l) /\
    ascending score back /\
    forall a b, a ∈ front -> b ∈ back -> score a <= score b.

End MoreExchange.

(** ** Chains on the heap *)

(** The chains of a round run one after the other on the heap, each on
    the pointer of its slot; [body] is the loop body of either
    revision. *)
Fixpoint chains_on_heap
    (body : nat -> Draw -> nat -> Pointers.heap -> option (nat * Pointers.heap))
    (index : nat) (slots : list nat) (draws : list Draw) (h : Pointers.heap)
  : option (list nat * Pointers.heap) :=
  match slots, draws with
  | [], _ => Some ([], h)
  | p :: slots', d :: draws' =>
      '(p', h) ← body index d p h;
      '(reports, h) ← chains_on_heap body (S index) slots' draws' h;
      Some (p' :: reports, h)
  | _ :: _, [] => None
  end.

(** The pointers of [slots] lead to the states [vals]. *)
Definition points_to (h : Pointers.heap) (slots : list nat) (vals : list State) : Prop :=
  Forall2 (fun p s => h !! p = Some s) slots vals.

Section HeapRound.
Variable P : Program.

(** What both loop bodies do to the heap: they compute [chain] on the
    state behind the pointer, report a pointer to the result that is the
    one received or a new one, free nothing, and leave every other state
    alone. *)
Definition computes_chain
    (body : nat -> Draw -> nat -> Pointers.heap -> option (nat * Pointers.heap)) : Prop :=
  forall index d p s (h : Pointers.heap),
    h !! p = Some s ->
    match chain P index d s with
    | None => body index d p h = None
    | Some s' =>
        exists p' h',
          body index d p h = Some (p', h')
          /\ h' !! p' = Some s'
          /\ (p' = p \/ h !! p' = None)
          /\ (forall q, is_Some (h !! q) -> is_Some (h' !! q))
          /\ (forall q, q <> p -> is_Some (h !! q) -> h' !! q = h !! q)
    end.

End HeapRound.

(** ** Output *)




(** The payload after [k] rounds lies within [k] largest steps of where it
    started. *)
Definition within (P : Program) (k : Z) (s : State) : Prop :=
  - (SHIFT P * k) <= World s <= (SPAN P - SHIFT P - 1) * k.

(** The payload is an [int32]. *)
Definition World_in_range (s : State) : Prop := Int32.in_range (World s).

(** ** More example data *)

(** A run of [metropolis.go] that succeeds in its first round. *)
Definition lucky_run : list (list Draw) := [lucky_draws].

(** Six report channels, the second with nothing offered. *)
Definition one_report_missing : list chan :=
  [Some near; None; Some near; Some near; Some near; Some near].

(** A heap of two states at the start, and a pair of draws. *)
Definition two_states : Pointers.heap := <[0%nat := start]> (<[1%nat := start]> ∅).

Definition two_draws : list Draw :=
  [worse_draw; {| int31n := 50010; float64 := 1 # 2 |}].

(** One round of the largest step up the other revision can take. *)
Definition small_steps : list (list Draw) :=
  [replicate 6 {| int31n := 99; float64 := 1 # 2 |}].

(** * Part II: properties *)

(** ** Machine integers *)

Module Int32Facts.
Import Int32.

Lemma wrap_in_range z : in_range (wrap z).
Proof.
  unfold in_range, wrap, min_int, max_int.
  pose proof (Z.mod_pos_bound (z + 2147483648) 4294967296 ltac:(lia)). lia.
Qed.

Lemma wrap_id z : in_range z -> wrap z = z.
Proof.
  unfold in_range, wrap, min_int, max_int. intros Hz.
  rewrite Z.mod_small by lia. lia.
Qed.

Lemma wrap_idem z : wrap (wrap z) = wrap z.
Proof. apply wrap_id, wrap_in_range. Qed.

(** Negating any value but [min_int] stays in range. *)
Lemma wrap_neg z : in_range z -> z <> min_int -> wrap (z * -1) = - z.
Proof.
  unfold in_range, min_int, max_int. intros Hz Hne.
  rewrite wrap_id; [lia | unfold in_range, min_int, max_int; lia].
Qed.

Lemma wrap_neg_min : wrap (min_int * -1) = min_int.
Proof. reflexivity. Qed.

End Int32Facts.

Ltac int32_range := unfold Int32.in_range, Int32.min_int, Int32.max_int; lia.

(** ** Scoring *)

Section ScoringFacts.
Variable P : Program.

Lemma SetScore_World s : World (SetScore P s) = World s.
Proof. unfold SetScore; simpl. by destruct (_ <? 0). Qed.

Lemma SetScore_Score s : Score (SetScore P s) = scoring_function P (World s).
Proof. unfold SetScore, scoring_function; simpl. by destruct (_ <? 0). Qed.

Lemma SetScore_consistent s : consistent P (SetScore P s).
Proof. unfold consistent. by rewrite SetScore_World, SetScore_Score. Qed.

Lemma SetScore_fixes_consistent s : consistent P s -> SetScore P s = s.
Proof.
  intros Hs. destruct s as [sc w]. unfold consistent in Hs; simpl in Hs.
  pose proof (SetScore_World (mkState sc w)) as Hw.
  pose proof (SetScore_Score (mkState sc w)) as Hsc.
  destruct (SetScore P (mkState sc w)) as [sc' w']; simpl in *. congruence.
Qed.

(** Away from the one distance that has no negation in [int32], the
    score is the absolute value of the wrapped difference. *)
Lemma scoring_function_abs w :
  Int32.wrap (TARGET P - w) <> Int32.min_int ->
  scoring_function P w = Z.abs (Int32.wrap (TARGET P - w)).
Proof.
  intros Hne. unfold scoring_function; simpl.
  pose proof (Int32Facts.wrap_in_range (TARGET P - w)) as Hr.
  destruct (Z.ltb_spec (Int32.wrap (TARGET P - w)) 0).
  - rewrite Int32Facts.wrap_neg by done. lia.
  - lia.
Qed.

Lemma scoring_function_min w :
  Int32.wrap (TARGET P - w) = Int32.min_int ->
  scoring_function P w = Int32.min_int.
Proof. intros He. unfold scoring_function; simpl. by rewrite He. Qed.

Lemma scoring_function_in_range w : Int32.in_range (scoring_function P w).
Proof.
  unfold scoring_function; simpl.
  destruct (_ <? 0); apply Int32Facts.wrap_in_range.
Qed.

Lemma NewState_consistent : consistent P (NewState P).
Proof. apply SetScore_consistent. Qed.

End ScoringFacts.

(** ** Chain *)

Section ChainFacts.
Variable P : Program.

Lemma Qgtb_true r h : Qgtb r h = true <-> (h < r)%Q.
Proof.
  unfold Qgtb. rewrite negb_true_iff.
  destruct (Qle_bool r h) eqn:E.
  - apply Qle_bool_iff in E. split; [done |]. intros Hlt.
    exfalso. by apply (Qlt_not_le _ _ Hlt).
  - split; [| done]. intros _. apply Qnot_le_lt. intros Hle.
    apply Qle_bool_iff in Hle. congruence.
Qed.

Lemma Qgtb_false r h : Qgtb r h = false <-> (r <= h)%Q.
Proof.
  unfold Qgtb. rewrite negb_false_iff. apply Qle_bool_iff.
Qed.

(** The three ways an iteration ends. *)
Lemma chain_cases index d s :
  chain P index d s =
    if Score (candidate P d s) >? Score s then
      match Heat P !! index with
      | Some h => if Qgtb (float64 d) h then Some s else Some (candidate P d s)
      | None => None
      end
    else Some (candidate P d s).
Proof.
  unfold chain, candidate. destruct (_ >? _); [| done].
  by destruct (Heat P !! index).
Qed.

Lemma chain_total index d s :
  (index < length (Heat P))%nat -> is_Some (chain P index d s).
Proof.
  intros Hi. rewrite chain_cases.
  destruct (lookup_lt_is_Some_2 _ _ Hi) as [h ->].
  destruct (_ >? _); [destruct (Qgtb _ _) |]; eauto.
Qed.

Lemma chain_output index d s s' :
  chain P index d s = Some s' -> s' = candidate P d s \/ s' = s.
Proof.
  rewrite chain_cases. destruct (_ >? _).
  - destruct (Heat P !! index); [| done].
    destruct (Qgtb _ _); intros [= <-]; auto.
  - intros [= <-]; auto.
Qed.

Lemma candidate_consistent d s : consistent P (candidate P d s).
Proof. apply SetScore_consistent. Qed.

Lemma chain_consistent index d s s' :
  consistent P s -> chain P index d s = Some s' -> consistent P s'.
Proof.
  intros Hs Hc. destruct (chain_output _ _ _ _ Hc) as [-> | ->];
    [apply candidate_consistent | done].
Qed.

End ChainFacts.

(** ** The exchange pass *)

Section ExchangeFacts.
Context {A : Type} (score : A -> Z).

Lemma lookup_after_prefix (pre : list A) x y rest :
  (pre ++ x :: y :: rest) !! (length pre + 1)%nat = Some y.
Proof.
  rewrite (lookup_app_r pre) by lia.
  by replace (length pre + 1 - length pre)%nat with 1%nat by lia.
Qed.

Lemma swap_after_prefix (pre : list A) x y rest :
  <[(length pre + 1)%nat := x]> (<[length pre := y]> (pre ++ x :: y :: rest))
  = pre ++ y :: x :: rest.
Proof.
  replace (length pre) with (length pre + 0)%nat at 2 by lia.
  by rewrite !insert_app_r.
Qed.

(** One iteration, at the boundary between the slots already passed and
    the two slots under comparison. *)
Lemma exchange_at_boundary (pre : list A) x y rest :
  exchange_at score (pre ++ x :: y :: rest) (length pre) =
    Some (if score x >? score y
          then pre ++ y :: x :: rest
          else pre ++ x :: y :: rest).
Proof.
  unfold exchange_at.
  rewrite (list_lookup_middle pre _ x (length pre)) by done. simpl.
  rewrite lookup_after_prefix. simpl.
  destruct (score x >? score y); [| done].
  by rewrite swap_after_prefix.
Qed.

(** The loop from slot [length pre] on is [carry]. *)
Lemma exchange_loop_carry rest : forall (pre : list A) x,
  exchange_loop score (length pre) (length rest) (pre ++ x :: rest)
  = Some (pre ++ carry score x rest).
Proof.
  induction rest as [| y rest IH]; intros pre x; simpl; [done |].
  rewrite exchange_at_boundary. simpl.
  destruct (score x >? score y).
  - specialize (IH (pre ++ [y]) x).
    rewrite length_app, Nat.add_1_r, <- !app_assoc in IH. exact IH.
  - specialize (IH (pre ++ [x]) y).
    rewrite length_app, Nat.add_1_r, <- !app_assoc in IH. exact IH.
Qed.

(** The index loop of the source computes the adjacent pass, and never
    indexes out of range on an array of [THREADS] slots. *)
Lemma exchange_adjacent_pass THREADS (sp : list A) :
  length sp = THREADS -> exchange score THREADS sp = Some (adjacent_pass score sp).
Proof.
  intros <-. unfold exchange. destruct sp as [| x rest]; simpl; [done |].
  rewrite Nat.sub_0_r. apply (exchange_loop_carry rest [] x).
Qed.

Lemma carry_Permutation rest : forall x, Permutation (x :: rest) (carry score x rest).
Proof.
  induction rest as [| y rest IH]; intros x; simpl; [reflexivity |].
  destruct (score x >? score y).
  - rewrite perm_swap. constructor. apply IH.
  - constructor. apply IH.
Qed.

Lemma adjacent_pass_Permutation (sp : list A) : Permutation sp (adjacent_pass score sp).
Proof. destruct sp; simpl; [reflexivity | apply carry_Permutation]. Qed.

Lemma carry_length rest : forall x, length (carry score x rest) = S (length rest).
Proof.
  induction rest as [| y rest IH]; intros x; simpl; [done |].
  destruct (score x >? score y); simpl; by rewrite IH.
Qed.

Lemma carry_ascending rest : forall x,
  ascending score (x :: rest) -> carry score x rest = x :: rest.
Proof.
  induction rest as [| y rest IH]; intros x Hs; simpl; [done |].
  apply Sorted_inv in Hs as [Hs Hhd]. apply HdRel_inv in Hhd.
  destruct (Z.gtb_spec (score x) (score y)); [lia |].
  by rewrite IH.
Qed.

(** What is carried out of the last comparison is a worst state, and it
    lands in the last slot. *)
Lemma carry_last_worst rest : forall x,
  exists worst,
    last (carry score x rest) = Some worst /\
    forall a, a ∈ x :: rest -> score a <= score worst.
Proof.
  induction rest as [| y rest IH]; intros x; simpl.
  - exists x. split; [done |]. intros a Ha.
    apply list_elem_of_singleton in Ha as ->. lia.
  - destruct (Z.gtb_spec (score x) (score y)) as [Hgt | Hle].
    + destruct (IH x) as (worst & Hlast & Hmax). exists worst. split.
      * rewrite last_cons, Hlast. done.
      * intros a Ha. apply elem_of_cons in Ha as [-> | Ha].
        { apply Hmax. left. }
        apply elem_of_cons in Ha as [-> | Ha].
        { specialize (Hmax x ltac:(left)). lia. }
        apply Hmax. by right.
    + destruct (IH y) as (worst & Hlast & Hmax). exists worst. split.
      * rewrite last_cons, Hlast. done.
      * intros a Ha. apply elem_of_cons in Ha as [-> | Ha].
        { specialize (Hmax y ltac:(left)). lia. }
        by apply Hmax.
Qed.

End ExchangeFacts.

(** ** Chain, through pointers *)

Section PointerFacts.
Variable P : Program.
Import Pointers.

Lemma call_Some method s st (h : heap) :
  h !! s = Some st -> call method s h = Some (<[s := method st]> h).
Proof. intros Hs. unfold call. by rewrite Hs. Qed.

(** Through the pointer, [metropolis.go]'s iteration computes [chain] on
    the state behind it and leaves the result behind the same pointer;
    no other state is touched. *)
Lemma chain_metropolis_go_refines index d p s (h : heap) :
  h !! p = Some s ->
  chain_metropolis_go P index d p h
  = (s' ← chain P index d s; Some (p, <[p := s']> h)).
Proof.
  intros Hp. unfold chain_metropolis_go. rewrite Hp. simpl.
  rewrite (call_Some _ _ _ _ Hp). simpl.
  rewrite (call_Some _ _ (Mutate P (int31n d) s)) by apply lookup_insert_eq. simpl.
  rewrite lookup_insert_eq. simpl. rewrite !insert_insert_eq.
  rewrite chain_cases. unfold candidate.
  destruct (_ >? _); [| done].
  destruct (Heat P !! index) as [ht |]; simpl; [| done].
  by destruct (Qgtb _ _).
Qed.

(** Through the pointer, the other revision's iteration computes [chain]
    too; the result is behind the pointer it reports, and every state
    that was on the heap, the one received apart, is as it was. *)
Lemma chain_part_000_refines index d p s (h : heap) :
  h !! p = Some s ->
  match chain P index d s with
  | None => chain_part_000 P index d p h = None
  | Some s' =>
      exists p' h',
        chain_part_000 P index d p h = Some (p', h')
        /\ h' !! p' = Some s'
        /\ forall q, q <> p -> is_Some (h !! q) -> h' !! q = h !! q
  end.
Proof.
  intros Hp. unfold chain_part_000. rewrite Hp. simpl.
  set (o := fresh (dom h)).
  assert (h !! o = None) as Ho.
  { apply not_elem_of_dom. apply is_fresh. }
  assert (o <> p) as Hne by (intros ->; congruence).
  assert (<[o := s]> h !! p = Some s) as Hp' by (by rewrite lookup_insert_ne).
  rewrite (call_Some _ _ _ _ Hp'). simpl.
  rewrite (call_Some _ _ (Mutate P (int31n d) s)) by apply lookup_insert_eq. simpl.
  rewrite lookup_insert_eq. simpl. rewrite insert_insert_eq.
  rewrite lookup_insert_ne by done. rewrite lookup_insert_eq. simpl.
  rewrite chain_cases. unfold candidate.
  assert (forall q, q <> p -> is_Some (h !! q) ->
            <[p := SetScore P (Mutate P (int31n d) s)]> (<[o := s]> h) !! q = h !! q) as Hframe.
  { intros q Hq [x Hx]. rewrite lookup_insert_ne by done.
    rewrite lookup_insert_ne; [done |]. intros ->. congruence. }
  destruct (_ >? _).
  - destruct (Heat P !! index) as [ht |]; simpl; [| done].
    destruct (Qgtb _ _).
    + eexists _, _. split; [done |]. split; [| exact Hframe].
      rewrite lookup_insert_ne by done. apply lookup_insert_eq.
    + eexists _, _. split; [done |]. split; [| exact Hframe].
      apply lookup_insert_eq.
  - eexists _, _. split; [done |]. split; [| exact Hframe].
    apply lookup_insert_eq.
Qed.

End PointerFacts.

(** ** The collection loop *)

Section HubFacts.

Lemma pending_0 reports : pending 0 reports = Some <$> reports.
Proof. done. Qed.

Lemma pending_S received waiting :
  pending (S received) waiting = pending received [] ++ None :: (Some <$> waiting).
Proof.
  unfold pending. rewrite replicate_S_end, fmap_nil, app_nil_r, <- app_assoc. done.
Qed.

Lemma recv_pending received s waiting :
  recv (pending received (s :: waiting)) received
  = Some (s, pending (S received) waiting).
Proof.
  unfold recv. rewrite pending_S. unfold pending. simpl. rewrite app_nil_r.
  rewrite (list_lookup_middle _ _ (Some s) received)
    by (by rewrite length_replicate).
  do 2 f_equal.
  replace received with (length (replicate received (@None State)) + 0)%nat at 1
    by (rewrite length_replicate; lia).
  by rewrite insert_app_r.
Qed.

(** No zero score among the reports: all of them are received, in slot
    order. *)
Lemma collect_all waiting : forall got,
  Forall nonzero waiting ->
  collect (length got) (length waiting) got (pending (length got) waiting)
  = Some (Collected (got ++ waiting) (pending (length got + length waiting) [])).
Proof.
  induction waiting as [| s waiting IH]; intros got Hnz; simpl.
  - by rewrite app_nil_r, Nat.add_0_r.
  - apply Forall_cons in Hnz as [Hs Hnz].
    rewrite recv_pending. simpl.
    destruct (Z.eqb_spec (Score s) 0) as [? | _]; [done |].
    specialize (IH (got ++ [s]) Hnz).
    rewrite length_app, Nat.add_1_r, <- app_assoc in IH. simpl in IH.
    rewrite IH. do 3 f_equal. lia.
Qed.

(** A zero score in slot order: the loop returns there, with the later
    reports still on their channels. *)
Lemma collect_stops before : forall got s later,
  Forall nonzero before -> Score s = 0 ->
  collect (length got) (length (before ++ s :: later)) got
    (pending (length got) (before ++ s :: later))
  = Some (Found (length got + length before) s
            (pending (S (length got + length before)) later)).
Proof.
  induction before as [| b before IH]; intros got s later Hnz Hs; simpl.
  - rewrite recv_pending. simpl. rewrite Hs. simpl. by rewrite Nat.add_0_r.
  - apply Forall_cons in Hnz as [Hb Hnz].
    rewrite recv_pending. simpl.
    destruct (Z.eqb_spec (Score b) 0) as [? | _]; [done |].
    specialize (IH (got ++ [b]) s later Hnz Hs).
    rewrite length_app, Nat.add_1_r in IH. simpl in IH.
    rewrite IH. do 3 f_equal; lia.
Qed.

Lemma resume_full THREADS (sp : list State) :
  length sp = THREADS -> resume THREADS sp = Some sp.
Proof.
  intros Hlen. unfold resume. apply mapM_Some.
  apply Forall2_same_length_lookup_2.
  - by rewrite length_seq.
  - intros i n s Hn Hs. apply lookup_seq in Hn as [-> _]. done.
Qed.

Lemma adjacent_pass_length {A} (score : A -> Z) (sp : list A) :
  length (adjacent_pass score sp) = length sp.
Proof. destruct sp; simpl; [done | apply carry_length]. Qed.

(** A round without a zero score resumes the chains on the exchanged
    slots. *)
Lemma hub_round_resumes THREADS reports :
  length reports = THREADS -> Forall nonzero reports ->
  hub_round THREADS (Some <$> reports) = Some (Resume (adjacent_pass Score reports)).
Proof.
  intros Hlen Hnz. unfold hub_round.
  pose proof (collect_all reports [] Hnz) as Hc. simpl in Hc.
  rewrite pending_0, Hlen in Hc. rewrite Hc. simpl.
  rewrite exchange_adjacent_pass by done. simpl.
  rewrite resume_full by (by rewrite adjacent_pass_length). done.
Qed.

(** A round with a zero score ends the hub at the first one. *)
Lemma hub_round_succeeds THREADS before s later :
  length (before ++ s :: later) = THREADS ->
  Forall nonzero before -> Score s = 0 ->
  hub_round THREADS (Some <$> before ++ s :: later)
  = Some (Success (length before) s (pending (S (length before)) later)).
Proof.
  intros Hlen Hnz Hs. unfold hub_round.
  pose proof (collect_stops before [] s later Hnz Hs) as Hc. simpl in Hc.
  rewrite pending_0, Hlen in Hc. by rewrite Hc.
Qed.

Global Instance nonzero_dec s : Decision (nonzero s).
Proof. unfold nonzero. apply _. Defined.

(** Either no report has a zero score, or there is a first one. *)
Lemma first_zero (reports : list State) :
  Forall nonzero reports \/
  exists before s later,
    reports = before ++ s :: later /\ Forall nonzero before /\ Score s = 0.
Proof.
  induction reports as [| r reports IH]; [by left |].
  destruct (decide (Score r = 0)) as [Hz | Hnz].
  - right. exists [], r, reports. by repeat split.
  - destruct IH as [Hall | (before & s & later & -> & Hb & Hs)].
    + left. by constructor.
    + right. exists (r :: before), s, later. repeat split; [| done].
      by constructor.
Qed.

End HubFacts.

(** ** Rounds *)

Section ProtocolFacts.
Variable P : Program.

Lemma chains_from_length slots : forall index draws reports,
  chains_from P index slots draws = Some reports -> length reports = length slots.
Proof.
  induction slots as [| s slots IH]; intros index draws reports; simpl.
  - by intros [= <-].
  - destruct draws as [| d draws]; [done |].
    destruct (chain P index d s) as [s' |]; simpl; [| done].
    destruct (chains_from P (S index) slots draws) as [rest |] eqn:E; simpl; [| done].
    intros [= <-]. simpl. f_equal. by eapply IH.
Qed.

(** Report [k] is the output of chain [index + k] on slot [k] and on
    its own draws. *)
Lemma chains_from_lookup slots : forall index draws reports k s,
  chains_from P index slots draws = Some reports ->
  slots !! k = Some s ->
  exists d s', draws !! k = Some d /\
               chain P (index + k) d s = Some s' /\
               reports !! k = Some s'.
Proof.
  induction slots as [| s0 slots IH]; intros index draws reports k s; simpl; [done |].
  destruct draws as [| d draws]; [done |].
  destruct (chain P index d s0) as [s0' |] eqn:Ec; simpl; [| done].
  destruct (chains_from P (S index) slots draws) as [rest |] eqn:E; simpl; [| done].
  intros [= <-] Hk. destruct k as [| k]; simpl in *.
  - injection Hk as ->. exists d, s0'. by rewrite Nat.add_0_r.
  - destruct (IH _ _ _ _ _ E Hk) as (d' & s' & Hd & Hc & Hr).
    exists d', s'. by rewrite <- Nat.add_succ_comm.
Qed.


Lemma chains_from_consistent slots : forall index draws reports,
  Forall (consistent P) slots ->
  chains_from P index slots draws = Some reports ->
  Forall (consistent P) reports.
Proof.
  induction slots as [| s slots IH]; intros index draws reports Hs; simpl.
  - by intros [= <-].
  - destruct draws as [| d draws]; [done |].
    apply Forall_cons in Hs as [Hs Hrest].
    destruct (chain P index d s) as [s' |] eqn:Ec; simpl; [| done].
    destruct (chains_from P (S index) slots draws) as [rest |] eqn:E; simpl; [| done].
    intros [= <-]. constructor; [by eapply chain_consistent | by eapply IH].
Qed.

(** What a round that resumes the chains hands them. *)
Lemma round_Resume slots draws slots' :
  length slots = THREADS P ->
  round P slots draws = Some (Resume slots') ->
  exists reports,
    chains P slots draws = Some reports /\
    Forall nonzero reports /\
    slots' = adjacent_pass Score reports.
Proof.
  intros Hlen. unfold round.
  destruct (chains P slots draws) as [reports |] eqn:Ec; simpl; [| done].
  pose proof (chains_from_length _ _ _ _ Ec) as Hrl. rewrite Hlen in Hrl.
  destruct (first_zero reports) as [Hnz | (before & s & later & -> & Hb & Hs)].
  - rewrite hub_round_resumes by done. intros [= <-]. eauto.
  - by rewrite hub_round_succeeds.
Qed.

Lemma main_slots_length : length (main_slots P) = THREADS P.
Proof. apply length_replicate. Qed.

Lemma reachable_length slots : reachable P slots -> length slots = THREADS P.
Proof.
  induction 1 as [| slots draws slots' _ IH Hr]; [apply main_slots_length |].
  destruct (round_Resume _ _ _ IH Hr) as (reports & Hc & _ & ->).
  rewrite adjacent_pass_length. apply chains_from_length in Hc. congruence.
Qed.

Lemma reachable_consistent slots : reachable P slots -> Forall (consistent P) slots.
Proof.
  induction 1 as [| slots draws slots' Hreach IH Hr].
  - apply Forall_replicate, NewState_consistent.
  - destruct (round_Resume _ _ _ (reachable_length _ Hreach) Hr)
      as (reports & Hc & _ & ->).
    rewrite <- (adjacent_pass_Permutation Score reports).
    by eapply chains_from_consistent.
Qed.


(** Whatever a run resumes on is reachable. *)
Lemma run_reachable rounds : forall slots slots',
  reachable P slots ->
  run P slots rounds = Some (Resume slots') ->
  reachable P slots'.
Proof.
  induction rounds as [| draws rounds IH]; intros slots slots' Hr; simpl.
  - by intros [= <-].
  - destruct (round P slots draws) as [[n s ch | mid] |] eqn:E; simpl; [done | | done].
    intros Hrun. eapply IH; [| exact Hrun]. by eapply reachable_round.
Qed.

End ProtocolFacts.

(** ** A run onto the payload the score overflows at *)

Lemma candidate_eq P d s :
  candidate P d s =
    let w := Int32.wrap (World s + Int32.wrap (int31n d - SHIFT P)) in
    {| Score := scoring_function P w; World := w |}.
Proof.
  unfold candidate, SetScore, Mutate, scoring_function. simpl.
  by destruct (_ <? 0).
Qed.

(** A step down from [below w], while the score still fits. *)
Lemma candidate_below w n :
  0 <= n < 100000 -> w <= 0 -> -2147483147 <= w + (n - 50000) ->  w + (n - 50000) <= 500 ->
  candidate metropolis_go (warm_draw n) (below w) = below (w + (n - 50000)).
Proof.
  intros Hn Hw Hlo Hhi. rewrite candidate_eq.
  cbn [warm_draw below int31n World SHIFT metropolis_go].
  rewrite (Int32Facts.wrap_id (n - 50000)) by int32_range.
  rewrite (Int32Facts.wrap_id (w + (n - 50000))) by int32_range.
  cbv zeta. unfold below. f_equal.
  unfold scoring_function. cbn [TARGET metropolis_go]. cbv zeta.
  rewrite Int32Facts.wrap_id by int32_range.
  destruct (Z.ltb_spec (500 - (w + (n - 50000))) 0); [lia | done].
Qed.

Lemma cold_chain_stays index n :
  (index < 5)%nat -> 0 <= n < 50000 ->
  chain metropolis_go index (warm_draw n) start = Some start.
Proof.
  intros Hi Hn. rewrite chain_cases.
  change start with (below 0).
  rewrite candidate_below by lia.
  assert ((Score (below (0 + (n - 50000))) >? Score (below 0)) = true) as ->.
  { apply Z.gtb_gt. simpl. lia. }
  do 5 (destruct index as [| index]; [reflexivity |]). lia.
Qed.

Lemma hot_chain_falls w n :
  0 <= n < 50000 -> w <= 0 -> -2147483147 <= w + (n - 50000) ->
  chain metropolis_go 5 (warm_draw n) (below w) = Some (below (w + (n - 50000))).
Proof.
  intros Hn Hw Hlo. rewrite chain_cases.
  rewrite candidate_below by lia.
  assert ((Score (below (w + (n - 50000))) >? Score (below w)) = true) as ->.
  { apply Z.gtb_gt. simpl. lia. }
  reflexivity.
Qed.

Lemma trailing_chains w n :
  0 <= n < 50000 -> w <= 0 -> -2147483147 <= w + (n - 50000) ->
  chains metropolis_go (trailing w) (warm_draws n) = Some (trailing (w + (n - 50000))).
Proof.
  intros Hn Hw Hlo. unfold chains, trailing, warm_draws.
  cbn [replicate app chains_from].
  rewrite !cold_chain_stays by lia. rewrite hot_chain_falls by lia.
  reflexivity.
Qed.

Lemma trailing_round w n :
  0 <= n < 50000 -> w <= 0 -> -2147483147 <= w + (n - 50000) ->
  round metropolis_go (trailing w) (warm_draws n) = Some (Resume (trailing (w + (n - 50000)))).
Proof.
  intros Hn Hw Hlo. unfold round. rewrite trailing_chains by lia. cbn [mbind option_bind].
  rewrite hub_round_resumes.
  - do 2 f_equal. unfold trailing. cbn [replicate app adjacent_pass carry].
    change (Score start) with 500. cbn [Score below].
    destruct (Z.gtb_spec 500 (500 - (w + (n - 50000)))); [lia |]. reflexivity.
  - reflexivity.
  - unfold trailing. apply Forall_app. split.
    + by apply Forall_replicate.
    + apply Forall_singleton. unfold nonzero. simpl. lia.
Qed.

Lemma trailing_rounds k : forall w rest,
  w <= 0 -> -2147483147 <= w - 50000 * Z.of_nat k ->
  run metropolis_go (trailing w) (replicate k (warm_draws 0) ++ rest)
  = run metropolis_go (trailing (w - 50000 * Z.of_nat k)) rest.
Proof.
  induction k as [| k IH]; intros w rest Hw Hlo.
  - simpl. do 2 f_equal. lia.
  - cbn [replicate app run]. rewrite trailing_round by lia. cbn [mbind option_bind].
    rewrite IH by lia. do 2 f_equal. lia.
Qed.

Lemma descent_run :
  run metropolis_go (main_slots metropolis_go) descent
  = Some (Resume (replicate 4 start ++ [far_scored; start])).
Proof.
  change (main_slots metropolis_go) with (trailing 0). unfold descent.
  rewrite trailing_rounds by lia.
  rewrite Z2Nat.id by lia.
  change (0 - 50000 * 42949) with (-2147450000).
  vm_compute. reflexivity.
Qed.

Lemma descent_draws_ok : Forall (Forall (Draw_ok metropolis_go)) descent.
Proof.
  unfold descent, warm_draws. apply Forall_app. split.
  - apply Forall_replicate, Forall_replicate. by vm_compute.
  - apply Forall_singleton, Forall_replicate. by vm_compute.
Qed.

(** With draws [math/rand] can return, [metropolis.go] reaches from its
    initial slots a round that starts with a negative score in slot 4. *)
Lemma negative_score_reachable :
  reachable metropolis_go (replicate 4 start ++ [far_scored; start])
  /\ Score far_scored < 0.
Proof.
  split; [| done].
  apply (run_reachable metropolis_go descent (main_slots metropolis_go)).
  - apply reachable_main.
  - apply descent_run.
Qed.

(** * Part III: the claims *)

(** ** The exchange (C4, C5, C6, C10) *)

(** C4. On an array of [THREADS] slots the exchange loop of [hub] is one
    left-to-right pass over adjacent slots, each comparison swapping
    exactly when the left score is strictly greater: it computes
    [adjacent_pass].  Scores [5; 3; 8] come out as [3; 5; 8], and the
    result of a pass need not be sorted. *)
Theorem exchange_is_single_adjacent_pass :
  (forall (A : Type) (score : A -> Z) (THREADS : nat) (sp : list A),
      length sp = THREADS ->
      exchange score THREADS sp = Some (adjacent_pass score sp))
  /\ (forall a b c : State,
        Score a = 5 -> Score b = 3 -> Score c = 8 ->
        exchange Score 3 [a; b; c] = Some [b; a; c])
  /\ (exists sp sp' : list State,
        exchange Score (length sp) sp = Some sp' /\ ~ ascending Score sp').
Proof.
  split; [| split].
  - intros A score THREADS sp. apply exchange_adjacent_pass.
  - intros a b c Ha Hb Hc.
    rewrite exchange_adjacent_pass by done. simpl.
    rewrite Ha, Hb, Hc. done.
  - exists descending3. eexists. split; [reflexivity |].
    intros Hs. apply Sorted_inv in Hs as [_ Hhd]. apply HdRel_inv in Hhd.
    simpl in Hhd. lia.
Qed.

Lemma exchange_is_single_adjacent_pass_witness :
  exchange Score 6 mixed6 = Some (adjacent_pass Score mixed6)
  /\ exchange Score 3 [s5; s3; s8] = Some [s3; s5; s8].
Proof.
  destruct exchange_is_single_adjacent_pass as (Hpass & Hex & _). split.
  - apply Hpass. reflexivity.
  - apply Hex; reflexivity.
Defined.

(** C5. One exchange pass over an array of [THREADS] slots returns a
    permutation of the array: every slot value occurs after the pass as
    often as before it. *)
Theorem exchange_permutes (A : Type) (score : A -> Z) (THREADS : nat) (sp : list A) :
  length sp = THREADS ->
  exists sp', exchange score THREADS sp = Some sp' /\ Permutation sp sp'.
Proof.
  intros Hlen. exists (adjacent_pass score sp). split.
  - by apply exchange_adjacent_pass.
  - apply adjacent_pass_Permutation.
Qed.

Lemma exchange_permutes_witness :
  length mixed6 = 6%nat /\
  exists sp', exchange Score 6 mixed6 = Some sp' /\ Permutation mixed6 sp'.
Proof. split; [reflexivity | apply exchange_permutes; reflexivity]. Defined.

(** C6. One exchange pass leaves an array unchanged whose scores are in
    non-decreasing order, equal neighbours included. *)
Theorem exchange_fixes_ascending (A : Type) (score : A -> Z) (THREADS : nat) (sp : list A) :
  length sp = THREADS ->
  ascending score sp ->
  exchange score THREADS sp = Some sp.
Proof.
  intros Hlen Hs. rewrite exchange_adjacent_pass by done. f_equal.
  destruct sp as [| x rest]; simpl; [done |]. by apply carry_ascending.
Qed.

Lemma ascending6_ascending : ascending Score ascending6.
Proof. repeat constructor; simpl; lia. Defined.

Lemma exchange_fixes_ascending_witness :
  length ascending6 = 6%nat /\ ascending Score ascending6 /\
  exchange Score 6 ascending6 = Some ascending6.
Proof.
  split; [reflexivity |]. split; [apply ascending6_ascending |].
  apply exchange_fixes_ascending; [reflexivity | apply ascending6_ascending].
Defined.

(** C10. After one exchange pass over [THREADS >= 1] slots, the last slot
    holds a state whose score is maximal among all the states of the
    array. *)
Theorem exchange_moves_worst_last (A : Type) (score : A -> Z) (THREADS : nat) (sp : list A) :
  length sp = THREADS ->
  (0 < THREADS)%nat ->
  exists sp' worst,
    exchange score THREADS sp = Some sp' /\
    sp' !! (THREADS - 1)%nat = Some worst /\
    forall a, a ∈ sp -> score a <= score worst.
Proof.
  intros Hlen Hpos. destruct sp as [| x rest]; simpl in Hlen; [lia |].
  destruct (carry_last_worst score rest x) as (worst & Hlast & Hmax).
  exists (carry score x rest), worst. split; [| split].
  - by rewrite exchange_adjacent_pass.
  - rewrite last_lookup, carry_length in Hlast. simpl in Hlast.
    rewrite <- Hlen. simpl. by rewrite Nat.sub_0_r.
  - exact Hmax.
Qed.

Lemma exchange_moves_worst_last_witness :
  length mixed6 = 6%nat /\ (0 < 6)%nat /\
  exists sp' worst,
    exchange Score 6 mixed6 = Some sp' /\
    sp' !! (6 - 1)%nat = Some worst /\
    forall a, a ∈ mixed6 -> Score a <= Score worst.
Proof.
  split; [reflexivity |]. split; [lia |].
  apply exchange_moves_worst_last; [reflexivity | lia].
Defined.

(** ** Scoring (C3) *)

(** Everywhere but at the distance [-2^31] [SetScore] stores the absolute
    value of the wrapped difference, which is not negative and is zero exactly
    when the difference is. *)
Lemma SetScore_abs (P : Program) (s : State) :
  Int32.wrap (TARGET P - World s) <> Int32.min_int ->
  Score (SetScore P s) = Z.abs (Int32.wrap (TARGET P - World s))
  /\ 0 <= Score (SetScore P s)
  /\ (Score (SetScore P s) = 0 <-> Int32.wrap (TARGET P - World s) = 0).
Proof.
  intros Hne. rewrite SetScore_Score, scoring_function_abs by done. lia.
Qed.

(** At that distance the negation wraps back onto [min_int]. *)
Lemma SetScore_min (P : Program) (s : State) :
  Int32.wrap (TARGET P - World s) = Int32.min_int ->
  Score (SetScore P s) = Int32.min_int.
Proof. intros Hmin. by rewrite SetScore_Score, scoring_function_min. Qed.

(** C3. [SetScore] does not always store a nonnegative score: for the
    payload whose wrapped difference to the target is [-2^31], the
    negation wraps back to [-2^31] and the stored score is negative, below
    the score 0 of the optimum.  [metropolis.go] reaches that payload
    from its initial slots. *)
Theorem SetScore_negative_at_min_distance :
  Int32.in_range (World far_state_metropolis_go)
  /\ SetScore metropolis_go far_state_metropolis_go = far_scored
  /\ Score far_scored < 0
  /\ reachable metropolis_go (replicate 4 start ++ [far_scored; start])
  /\ Int32.in_range (World far_state_part_000)
  /\ Score (SetScore part_000 far_state_part_000) = -2147483648.
Proof.
  split; [by vm_compute |]. split; [reflexivity |]. split; [done |].
  split; [apply negative_score_reachable |].
  split; [by vm_compute | reflexivity].
Qed.

(** ** The chain (C2, C7, C8) *)

(** C2, as the code has it.  On a chain whose heat is 0, for every roll
    [rand.Float64] returns other than exactly 0, the score of the
    reported state is at most the score of the state received. *)
Theorem cold_chain_never_regresses_on_positive_roll
    (P : Program) (index : nat) (h : Q) (d : Draw) (s : State) :
  Heat P !! index = Some h ->
  (h == 0)%Q ->
  (0 < float64 d)%Q ->
  exists s', chain P index d s = Some s' /\ Score s' <= Score s.
Proof.
  intros Hh H0 Hr. rewrite chain_cases, Hh.
  destruct (Z.gtb_spec (Score (candidate P d s)) (Score s)) as [Hgt | Hle].
  - assert (Qgtb (float64 d) h = true) as ->.
    { apply Qgtb_true. by rewrite H0. }
    exists s. split; [done | lia].
  - eauto.
Qed.

Lemma cold_chain_never_regresses_on_positive_roll_witness :
  exists s', chain metropolis_go 0 worse_draw start = Some s' /\ Score s' <= Score start.
Proof.
  apply (cold_chain_never_regresses_on_positive_roll metropolis_go 0 0 worse_draw start);
    reflexivity.
Defined.

(** C2, as stated, fails when the roll is exactly 0: chain 0 of
    [metropolis.go] has heat 0, [0 > 0] is false, and the worse candidate
    is reported. *)
Lemma cold_chain_regresses_on_zero_roll :
  Heat metropolis_go !! 0%nat = Some 0%Q
  /\ Draw_ok metropolis_go zero_draw
  /\ Score start = 500
  /\ chain metropolis_go 0 zero_draw start = Some {| Score := 50500; World := -50000 |}
  /\ ~ (forall s', chain metropolis_go 0 zero_draw start = Some s' ->
                   Score s' <= Score start).
Proof.
  split; [reflexivity |]. split; [by vm_compute |]. split; [reflexivity |].
  split; [reflexivity |].
  intros H. specialize (H _ eq_refl). vm_compute in H. by apply H.
Qed.

(** C7. On a chain whose heat is 1, whatever [rand.Float64] returns, the
    iteration reports the mutated and rescored candidate. *)
Theorem hot_chain_always_accepts
    (P : Program) (index : nat) (h : Q) (d : Draw) (s : State) :
  Heat P !! index = Some h ->
  (h == 1)%Q ->
  (float64 d < 1)%Q ->
  chain P index d s = Some (candidate P d s).
Proof.
  intros Hh H1 Hr. rewrite chain_cases, Hh.
  assert (Qgtb (float64 d) h = false) as ->.
  { apply Qgtb_false. rewrite H1. by apply Qlt_le_weak. }
  by destruct (_ >? _).
Qed.

Lemma hot_chain_always_accepts_witness :
  Score (candidate scenario worse_draw (NewState scenario)) > Score (NewState scenario)
  /\ chain scenario 2 worse_draw (NewState scenario)
     = Some (candidate scenario worse_draw (NewState scenario)).
Proof.
  split; [reflexivity |].
  apply (hot_chain_always_accepts scenario 2 1 worse_draw (NewState scenario));
    reflexivity.
Defined.

(** C8. An iteration of a chain reports either the mutated and rescored
    candidate or the state it received; when the candidate is strictly
    worse and the roll exceeds the chain's heat, the reported state has
    the payload and the score of the state received. *)
Theorem chain_reports_candidate_or_copy
    (P : Program) (index : nat) (d : Draw) (s : State) :
  (index < length (Heat P))%nat ->
  exists s',
    chain P index d s = Some s'
    /\ (s' = candidate P d s \/ s' = s)
    /\ forall h,
         Heat P !! index = Some h ->
         Score (candidate P d s) > Score s ->
         (h < float64 d)%Q ->
         World s' = World s /\ Score s' = Score s.
Proof.
  intros Hi. destruct (chain_total P index d s Hi) as [s' Hc].
  exists s'. split; [done |]. split; [by eapply chain_output |].
  intros h Hh Hgt Hr. rewrite chain_cases, Hh in Hc.
  apply Z.gtb_gt in Hgt. rewrite Hgt in Hc.
  apply Qgtb_true in Hr. rewrite Hr in Hc. by injection Hc as <-.
Qed.

Lemma chain_reports_candidate_or_copy_witness :
  Heat metropolis_go !! 0%nat = Some 0%Q
  /\ Score (candidate metropolis_go worse_draw start) > Score start
  /\ (0 < float64 worse_draw)%Q
  /\ exists s',
       chain metropolis_go 0 worse_draw start = Some s'
       /\ World s' = World start /\ Score s' = Score start.
Proof.
  split; [reflexivity |]. split; [reflexivity |]. split; [reflexivity |].
  destruct (chain_reports_candidate_or_copy metropolis_go 0 worse_draw start)
    as (s' & Hc & _ & Hcopy); [simpl; lia |].
  exists s'. split; [exact Hc |].
  apply (Hcopy 0%Q); reflexivity.
Defined.

(** ** The hub's collection (C1) *)

(** C1, as the code has it.  When the reports of a round contain a zero
    score, the hub returns at the first of them in slot order, with that
    chain's state, having received the reports of the slots up to it and
    none of the later ones, which stay on their channels; no further
    round is run. *)
Theorem hub_returns_at_first_zero_score
    (P : Program) (slots : list State) (draws : list Draw)
    (reports : list State) (n : nat) (s : State) (rounds : list (list Draw)) :
  length slots = THREADS P ->
  chains P slots draws = Some reports ->
  reports !! n = Some s ->
  Score s = 0 ->
  (forall m r, (m < n)%nat -> reports !! m = Some r -> Score r <> 0) ->
  hub_round (THREADS P) (Some <$> reports)
    = Some (Success n s (pending (S n) (drop (S n) reports)))
  /\ run P slots (draws :: rounds)
    = Some (Success n s (pending (S n) (drop (S n) reports))).
Proof.
  intros Hlen Hc Hn Hs Hfirst.
  pose proof (chains_from_length _ _ _ _ _ Hc) as Hrl. rewrite Hlen in Hrl.
  assert (Forall nonzero (take n reports)) as Hb.
  { apply Forall_lookup. intros m r Hm.
    apply lookup_take_Some in Hm as [Hm Hlt]. by eapply Hfirst. }
  pose proof (take_drop_middle _ _ _ Hn) as Hsplit.
  assert (length (take n reports) = n) as Htake.
  { apply length_take_le. apply lookup_lt_Some in Hn. lia. }
  assert (hub_round (THREADS P) (Some <$> reports)
          = Some (Success n s (pending (S n) (drop (S n) reports)))) as Hhub.
  { rewrite <- Hsplit at 1.
    rewrite hub_round_succeeds by (done || by rewrite Hsplit).
    by rewrite Htake. }
  split; [exact Hhub |].
  simpl. unfold round. rewrite Hc. simpl. by rewrite Hhub.
Qed.

Lemma hub_returns_at_first_zero_score_witness :
  run metropolis_go (main_slots metropolis_go) [lucky_draws; lucky_draws]
  = Some (Success 0 hit (None :: replicate 5 (Some near))).
Proof.
  apply (hub_returns_at_first_zero_score metropolis_go (main_slots metropolis_go)
           lucky_draws (hit :: replicate 5 near) 0 hit [lucky_draws]).
  - reflexivity.
  - reflexivity.
  - reflexivity.
  - reflexivity.
  - intros m r Hm. lia.
Defined.

(** C1, as stated, fails in its last part: in that round the hub returns
    with chain 0's state and the reports of chains 1 to 5 are never
    received. *)
Lemma hub_leaves_later_reports_unreceived :
  chains metropolis_go (main_slots metropolis_go) lucky_draws
    = Some (hit :: replicate 5 near)
  /\ Score hit = 0
  /\ round metropolis_go (main_slots metropolis_go) lucky_draws
      = Some (Success 0 hit (None :: replicate 5 (Some near)))
  /\ ~ (exists n s ReportChan,
          round metropolis_go (main_slots metropolis_go) lucky_draws
            = Some (Success n s ReportChan)
          /\ forall m, (m < 6)%nat -> ReportChan !! m = Some None).
Proof.
  split; [reflexivity |]. split; [reflexivity |]. split; [reflexivity |].
  intros (n & s & ch & Hr & Hall).
  vm_compute in Hr. injection Hr as <- <- <-.
  specialize (Hall 1%nat ltac:(lia)). discriminate Hall.
Qed.

(** ** The score invariant (C9) *)

(** C9. Every state the protocol produces carries the score of its
    payload: the state [NewState] creates, and, from any slot contents
    the protocol reaches, every state a chain reports, the state the hub
    returns with, and every state the hub hands back after its
    exchange. *)
Theorem score_never_stale (P : Program) :
  consistent P (NewState P)
  /\ forall slots,
       reachable P slots ->
       Forall (consistent P) slots
       /\ forall draws reports,
            chains P slots draws = Some reports ->
            Forall (consistent P) reports
            /\ forall o,
                 hub_round (THREADS P) (Some <$> reports) = Some o ->
                 match o with
                 | Success _ s _ => consistent P s
                 | Resume slots' => Forall (consistent P) slots'
                 end.
Proof.
  split; [apply NewState_consistent |].
  intros slots Hreach.
  pose proof (reachable_consistent P slots Hreach) as Hslots.
  pose proof (reachable_length P slots Hreach) as Hlen.
  split; [done |]. intros draws reports Hc.
  pose proof (chains_from_consistent P _ _ _ _ Hslots Hc) as Hreports.
  pose proof (chains_from_length P _ _ _ _ Hc) as Hrl. rewrite Hlen in Hrl.
  split; [done |]. intros o.
  destruct (first_zero reports) as [Hnz | (before & s & later & -> & Hb & Hs)].
  - rewrite hub_round_resumes by done. intros [= <-].
    by rewrite <- (adjacent_pass_Permutation Score reports).
  - rewrite hub_round_succeeds by done. intros [= <-].
    apply Forall_app in Hreports as [_ Hreports].
    by apply Forall_cons in Hreports as [? _].
Qed.

Lemma second_round_reachable : reachable metropolis_go (replicate 6 near).
Proof.
  apply (reachable_round metropolis_go (main_slots metropolis_go) plain_draws).
  - apply reachable_main.
  - reflexivity.
Defined.

Lemma score_never_stale_witness :
  reachable metropolis_go (replicate 6 near)
  /\ Forall (consistent metropolis_go) (replicate 6 near)
  /\ forall reports,
       chains metropolis_go (replicate 6 near) lucky_draws = Some reports ->
       Forall (consistent metropolis_go) reports.
Proof.
  destruct (score_never_stale metropolis_go) as [_ Hinv].
  destruct (Hinv _ second_round_reachable) as [Hslots Hround].
  split; [exact second_round_reachable |]. split; [exact Hslots |].
  intros reports Hc. apply (Hround lucky_draws reports Hc).
Defined.

(** * Part IV: further properties of the code *)

(** ** Scoring, mutation and the heat rule *)

Section MethodFacts.
Variable P : Program.

Lemma wrap_eq_mod z : exists k, Int32.wrap z = z + 4294967296 * k.
Proof.
  unfold Int32.wrap. exists (- ((z + 2147483648) / 4294967296)).
  pose proof (Z.div_mod (z + 2147483648) 4294967296 ltac:(lia)). lia.
Qed.

Lemma wrap_add_wrap_r a b : Int32.wrap (a + Int32.wrap b) = Int32.wrap (a + b).
Proof.
  unfold Int32.wrap.
  replace (a + ((b + 2147483648) mod 4294967296 - 2147483648) + 2147483648)
    with (a + (b + 2147483648) mod 4294967296) by lia.
  rewrite Z.add_mod_idemp_r by lia. f_equal. f_equal. lia.
Qed.

Lemma wrap_add_wrap_l a b : Int32.wrap (Int32.wrap a + b) = Int32.wrap (a + b).
Proof. rewrite Z.add_comm, wrap_add_wrap_r. f_equal. lia. Qed.

Lemma wrap_zero z :
  -4294967296 < z < 4294967296 -> Int32.wrap z = 0 -> z = 0.
Proof.
  intros Hz Hw. destruct (wrap_eq_mod z) as [k Hk].
  pose proof (Int32Facts.wrap_in_range z) as Hr. lia.
Qed.

Lemma scoring_function_zero w :
  Int32.in_range (TARGET P) -> Int32.in_range w ->
  scoring_function P w = 0 -> w = TARGET P.
Proof.
  intros Ht Hw Hz.
  destruct (decide (Int32.wrap (TARGET P - w) = Int32.min_int)) as [Hmin | Hne].
  - rewrite scoring_function_min in Hz by done. discriminate Hz.
  - rewrite scoring_function_abs in Hz by done.
    unfold Int32.in_range, Int32.min_int, Int32.max_int in *.
    assert (TARGET P - w = 0); [| lia].
    apply wrap_zero; lia.
Qed.

(** X1. For an [int32] target and payload, [SetScore] stores the score 0
    exactly when the payload is the target: the hub's success test
    singles out the target, wrap-around included. *)
Theorem zero_score_iff_target (s : State) :
  Int32.in_range (TARGET P) -> Int32.in_range (World s) ->
  Score (SetScore P s) = 0 <-> World s = TARGET P.
Proof.
  intros Ht Hw. rewrite SetScore_Score. split.
  - by apply scoring_function_zero.
  - intros ->. unfold scoring_function. by rewrite Z.sub_diag.
Qed.

(** X2. When the difference between target and payload fits in an [int32]
    and is not [-2^31], [SetScore] stores its absolute value, the distance
    to the target, and that score is between 0 and [2^31 - 1]. *)
Theorem SetScore_is_distance (s : State) :
  - Int32.max_int <= TARGET P - World s <= Int32.max_int ->
  Score (SetScore P s) = Z.abs (TARGET P - World s)
  /\ 0 <= Score (SetScore P s) <= Int32.max_int.
Proof.
  unfold Int32.max_int. intros Hd. rewrite SetScore_Score.
  assert (Int32.wrap (TARGET P - World s) = TARGET P - World s) as Hw.
  { apply Int32Facts.wrap_id. int32_range. }
  rewrite scoring_function_abs; rewrite Hw; [lia |].
  unfold Int32.min_int. lia.
Qed.

Lemma Mutate_World n s :
  World (Mutate P n s) = Int32.wrap (World s + (n - SHIFT P)).
Proof. unfold Mutate. simpl. apply wrap_add_wrap_r. Qed.

(** X3. [Mutate] on the draw [2 * SHIFT - n] undoes [Mutate] on the draw
    [n], wrap-around included: it restores the payload and leaves the
    score as it was. *)
Theorem Mutate_undo (n : Z) (s : State) :
  Int32.in_range (World s) ->
  Mutate P (2 * SHIFT P - n) (Mutate P n s) = s.
Proof.
  intros Hw. destruct s as [sc w]. unfold Mutate at 1. simpl Score.
  f_equal. rewrite wrap_add_wrap_r, Mutate_World, wrap_add_wrap_l. simpl.
  replace (w + (n - SHIFT P) + (2 * SHIFT P - n - SHIFT P)) with w by lia.
  by apply Int32Facts.wrap_id.
Qed.

(** X4. [Mutate] never touches the score; it moves the payload by the draw
    less [SHIFT], and when that sum leaves the [int32] range the payload
    comes back in at the other end, [2^32] away. *)
Theorem Mutate_step (n : Z) (s : State) :
  Int32.in_range (World s) -> Int32.in_range (n - SHIFT P) ->
  Score (Mutate P n s) = Score s
  /\ Int32.in_range (World (Mutate P n s))
  /\ (World (Mutate P n s) = World s + (n - SHIFT P)
      \/ (Int32.max_int < World s + (n - SHIFT P)
          /\ World (Mutate P n s) = World s + (n - SHIFT P) - 4294967296)
      \/ (World s + (n - SHIFT P) < Int32.min_int
          /\ World (Mutate P n s) = World s + (n - SHIFT P) + 4294967296)).
Proof.
  intros Hw Hn. split; [done |]. rewrite Mutate_World.
  split; [apply Int32Facts.wrap_in_range |].
  pose proof (Int32Facts.wrap_in_range (World s + (n - SHIFT P))) as Hr.
  destruct (wrap_eq_mod (World s + (n - SHIFT P))) as [k Hk].
  unfold Int32.in_range, Int32.min_int, Int32.max_int in *. lia.
Qed.

(** X5. For every heat of the ladder: on a roll above the heat the reported
    score is never worse than the score received, and on a roll at or
    below the heat the candidate is reported whatever its score. *)
Theorem chain_heat_rule (index : nat) (h : Q) (d : Draw) (s : State) :
  Heat P !! index = Some h ->
  exists s', chain P index d s = Some s'
    /\ ((h < float64 d)%Q -> Score s' <= Score s)
    /\ ((float64 d <= h)%Q -> s' = candidate P d s).
Proof.
  intros Hh. rewrite chain_cases, Hh.
  destruct (Z.gtb_spec (Score (candidate P d s)) (Score s)) as [Hgt | Hle].
  - destruct (Qgtb (float64 d) h) eqn:E.
    + exists s. split; [done |]. split; [lia |].
      intros Hle. apply Qgtb_true in E. exfalso. by apply (Qlt_not_le _ _ E).
    + eexists. split; [done |]. split; [| done].
      intros Hlt. apply Qgtb_false in E. exfalso. by apply (Qlt_not_le _ _ Hlt).
  - eexists. split; [done |]. split; [| done]. intros _. lia.
Qed.

End MethodFacts.

Lemma zero_score_iff_target_witness :
  Score (SetScore metropolis_go hit) = 0 <-> World hit = TARGET metropolis_go.
Proof. apply zero_score_iff_target; by vm_compute. Defined.

Lemma SetScore_is_distance_witness :
  Score (SetScore metropolis_go near) = Z.abs (TARGET metropolis_go - World near)
  /\ 0 <= Score (SetScore metropolis_go near) <= Int32.max_int.
Proof. apply SetScore_is_distance. by vm_compute. Defined.

Lemma Mutate_undo_witness :
  0 <= 2 * SHIFT metropolis_go - 1 < SPAN metropolis_go
  /\ Mutate metropolis_go (2 * SHIFT metropolis_go - 1) (Mutate metropolis_go 1 near) = near.
Proof. split; [by vm_compute |]. apply Mutate_undo. by vm_compute. Defined.

Lemma Mutate_step_witness :
  Score (Mutate metropolis_go 0 near) = Score near
  /\ Int32.in_range (World (Mutate metropolis_go 0 near))
  /\ (World (Mutate metropolis_go 0 near) = World near + (0 - SHIFT metropolis_go)
      \/ (Int32.max_int < World near + (0 - SHIFT metropolis_go)
          /\ World (Mutate metropolis_go 0 near)
             = World near + (0 - SHIFT metropolis_go) - 4294967296)
      \/ (World near + (0 - SHIFT metropolis_go) < Int32.min_int
          /\ World (Mutate metropolis_go 0 near)
             = World near + (0 - SHIFT metropolis_go) + 4294967296)).
Proof. apply Mutate_step; by vm_compute. Defined.

Lemma chain_heat_rule_witness :
  exists s', chain metropolis_go 5 worse_draw start = Some s'
    /\ ((1 # 100 < float64 worse_draw)%Q -> Score s' <= Score start)
    /\ ((float64 worse_draw <= 1 # 100)%Q -> s' = candidate metropolis_go worse_draw start).
Proof. apply (chain_heat_rule metropolis_go 5 (1 # 100)). reflexivity. Defined.

(** ** The hub's turn on any channels *)

Section HubMoreFacts.

(** Receiving with further channels behind the ones under collection. *)
Lemma recv_pending_more received s waiting (more : list chan) :
  recv (pending received (s :: waiting) ++ more) received
  = Some (s, pending (S received) waiting ++ more).
Proof.
  unfold recv. rewrite pending_S. unfold pending. simpl. rewrite app_nil_r.
  rewrite <- !app_assoc. simpl.
  rewrite (list_lookup_middle _ _ (Some s) received)
    by (by rewrite length_replicate).
  do 2 f_equal.
  replace received with (length (replicate received (@None State)) + 0)%nat at 1
    by (rewrite length_replicate; lia).
  by rewrite insert_app_r.
Qed.

(** Receiving from a channel nothing is offered on. *)
Lemma recv_empty received (more : list chan) :
  recv (pending received [] ++ None :: more) received = None.
Proof.
  unfold recv, pending, chan in *. rewrite fmap_nil, app_nil_r.
  by rewrite (list_lookup_middle (replicate received None) more (@None State) received)
    by (by rewrite length_replicate).
Qed.

Lemma recv_beyond (chans : list chan) n :
  (length chans <= n)%nat -> recv chans n = None.
Proof. intros Hn. unfold recv. by rewrite lookup_ge_None_2. Qed.

Lemma pending_shift received s waiting (more : list chan) :
  pending received (s :: waiting) ++ more
  = pending received [] ++ Some s :: ((Some <$> waiting) ++ more).
Proof. unfold pending. simpl. by rewrite app_nil_r, <- app_assoc. Qed.

(** The loop stops at the first zero score whatever the later channels
    hold. *)
Lemma collect_stops_more before : forall got count s (more : list chan),
  Forall nonzero before -> Score s = 0 -> (length before < count)%nat ->
  collect (length got) count got (pending (length got) (before ++ [s]) ++ more)
  = Some (Found (length got + length before) s
            (pending (S (length got + length before)) [] ++ more)).
Proof.
  induction before as [| b before IH]; intros got count s more Hnz Hs Hc;
    (destruct count as [| count]; [simpl in Hc; lia |]); simpl.
  - rewrite recv_pending_more. simpl. rewrite Hs. simpl. by rewrite Nat.add_0_r.
  - apply Forall_cons in Hnz as [Hb Hnz].
    rewrite recv_pending_more. simpl.
    destruct (Z.eqb_spec (Score b) 0) as [? | _]; [done |].
    specialize (IH (got ++ [b]) count s more Hnz Hs ltac:(simpl in Hc; lia)).
    rewrite length_app, Nat.add_1_r in IH. simpl in IH.
    rewrite IH.
    by replace (length got + S (length before))%nat
      with (S (length got + length before)) by lia.
Qed.

(** The loop blocks at the first channel nothing is offered on, if no zero
    score came before it. *)
Lemma collect_blocks before : forall got count (more : list chan),
  Forall nonzero before -> (length before < count)%nat ->
  collect (length got) count got (pending (length got) before ++ None :: more) = None.
Proof.
  induction before as [| b before IH]; intros got count more Hnz Hc;
    (destruct count as [| count]; [simpl in Hc; lia |]); simpl.
  - by rewrite recv_empty.
  - apply Forall_cons in Hnz as [Hb Hnz].
    rewrite recv_pending_more. simpl.
    destruct (Z.eqb_spec (Score b) 0) as [? | _]; [done |].
    specialize (IH (got ++ [b]) count more Hnz ltac:(simpl in Hc; lia)).
    rewrite length_app, Nat.add_1_r in IH. exact IH.
Qed.

(** Channels either all hold a report or there is a first empty one. *)
Lemma first_empty (chans : list chan) :
  (exists reports, chans = Some <$> reports)
  \/ exists before more, chans = (Some <$> before) ++ None :: more.
Proof.
  induction chans as [| c chans IH]; [left; by exists [] |].
  destruct c as [s |].
  - destruct IH as [[reports ->] | (before & more & ->)].
    + left. by exists (s :: reports).
    + right. by exists (s :: before), more.
  - right. by exists [], chans.
Qed.

Lemma hub_round_succeeds_more THREADS before s (more : list chan) :
  Forall nonzero before -> Score s = 0 -> (length before < THREADS)%nat ->
  hub_round THREADS ((Some <$> before ++ [s]) ++ more)
  = Some (Success (length before) s (pending (S (length before)) [] ++ more)).
Proof.
  intros Hnz Hs Hlt. unfold hub_round.
  pose proof (collect_stops_more before [] THREADS s more Hnz Hs Hlt) as Hc.
  simpl in Hc. unfold pending in Hc at 1. simpl in Hc. by rewrite Hc.
Qed.

Lemma hub_round_blocks THREADS before (more : list chan) :
  Forall nonzero before -> (length before < THREADS)%nat ->
  hub_round THREADS ((Some <$> before) ++ None :: more) = None.
Proof.
  intros Hnz Hlt. unfold hub_round.
  pose proof (collect_blocks before [] THREADS more Hnz Hlt) as Hc.
  match goal with
  | |- context [collect ?n ?count ?got ?ch] =>
      replace (collect n count got ch) with (@None collected)
        by (symmetry; exact Hc)
  end.
  done.
Qed.

(** The outcome of the hub's turn on the first empty channel. *)
Lemma hub_round_gap THREADS before (more : list chan) :
  (length before < THREADS)%nat ->
  hub_round THREADS ((Some <$> before) ++ None :: more) = None
  \/ exists n s ch, hub_round THREADS ((Some <$> before) ++ None :: more)
                    = Some (Success n s ch).
Proof.
  intros Hlt.
  destruct (first_zero before) as [Hnz | (ok & s & later & -> & Hok & Hs)].
  - left. by apply hub_round_blocks.
  - right. do 3 eexists.
    replace ((Some <$> ok ++ s :: later) ++ None :: more)
      with ((Some <$> ok ++ [s]) ++ ((Some <$> later) ++ None :: more)).
    + apply hub_round_succeeds_more; [done | done |].
      rewrite length_app in Hlt. simpl in Hlt. lia.
    + rewrite !fmap_app, <- !app_assoc. done.
Qed.

End HubMoreFacts.

(** X6. The barrier.  With [THREADS] report channels, the hub's turn
    resumes the chains exactly when every channel held a report and no
    report had score 0; the slots it hands back are then one exchange
    pass of all the reports. *)
Theorem hub_resumes_iff (THREADS : nat) (ReportChan : list chan) (slots : list State) :
  length ReportChan = THREADS ->
  hub_round THREADS ReportChan = Some (Resume slots)
  <-> exists reports,
        ReportChan = Some <$> reports
        /\ Forall nonzero reports
        /\ slots = adjacent_pass Score reports.
Proof.
  intros Hlen. split.
  - intros Hr.
    destruct (first_empty ReportChan) as [[reports ->] | (before & more & ->)].
    + rewrite length_fmap in Hlen.
      destruct (first_zero reports) as [Hnz | (ok & s & later & -> & Hok & Hs)].
      * rewrite hub_round_resumes in Hr by done. injection Hr as <-. eauto.
      * by rewrite hub_round_succeeds in Hr.
    + assert (length before < THREADS)%nat as Hlt.
      { rewrite length_app, length_fmap in Hlen. simpl in Hlen. lia. }
      destruct (hub_round_gap THREADS before more Hlt) as [Hb | (n & s & ch & Hb)];
        rewrite Hb in Hr; discriminate Hr.
  - intros (reports & -> & Hnz & ->). rewrite length_fmap in Hlen.
    by apply hub_round_resumes.
Qed.

Lemma hub_resumes_iff_witness :
  hub_round 6 (Some <$> mixed6) = Some (Resume (adjacent_pass Score mixed6)).
Proof.
  apply (hub_resumes_iff 6 (Some <$> mixed6)); [reflexivity |].
  exists mixed6. split; [reflexivity |]. split; [| reflexivity].
  unfold mixed6. repeat (apply Forall_cons_2; [by vm_compute |]). apply Forall_nil_2.
Defined.

(** X7. When some chain has offered no report and no chain in a slot before
    it reported score 0, the hub's turn does not end: it waits on that
    channel, whatever the later channels hold. *)
Theorem hub_blocks_on_missing_report (THREADS : nat) (before : list State) (more : list chan) :
  Forall nonzero before ->
  (length before < THREADS)%nat ->
  hub_round THREADS ((Some <$> before) ++ None :: more) = None.
Proof. apply hub_round_blocks. Qed.

Lemma hub_blocks_on_missing_report_witness :
  hub_round 6 one_report_missing = None.
Proof.
  apply (hub_blocks_on_missing_report 6 [near] (replicate 4 (Some near))).
  - apply Forall_cons_2; [by vm_compute | apply Forall_nil_2].
  - simpl. lia.
Defined.

(** X8. The hub returns at the first zero score in slot order whether or
    not the chains in later slots have reported, and leaves their
    channels as they were. *)
Theorem hub_success_ignores_later_channels (THREADS : nat) (before : list State) (s : State)
    (more : list chan) :
  Forall nonzero before ->
  Score s = 0 ->
  (length before < THREADS)%nat ->
  hub_round THREADS ((Some <$> before ++ [s]) ++ more)
  = Some (Success (length before) s (replicate (S (length before)) None ++ more)).
Proof.
  intros Hnz Hs Hlt. rewrite hub_round_succeeds_more by done.
  unfold pending. by rewrite fmap_nil, app_nil_r.
Qed.

Lemma hub_success_ignores_later_channels_witness :
  hub_round 6 [Some near; Some hit; None; None; None; None]
  = Some (Success 1 hit (replicate 6 None)).
Proof.
  apply (hub_success_ignores_later_channels 6 [near] hit (replicate 4 None)).
  - apply Forall_cons_2; [by vm_compute | apply Forall_nil_2].
  - reflexivity.
  - simpl. lia.
Defined.

(** ** More on the exchange pass *)

Section MoreExchangeFacts.
Context {A : Type} (score : A -> Z).

Lemma carry_fixed rest : forall x,
  carry score x rest = x :: rest -> ascending score (x :: rest).
Proof.
  induction rest as [| y rest IH]; intros x; simpl.
  - intros _. repeat constructor.
  - destruct (Z.gtb_spec (score x) (score y)) as [Hgt | Hle].
    + intros [= -> _]. lia.
    + intros [= Hc]. constructor; [by apply IH | by constructor].
Qed.

Lemma carry_holds_carried rest : forall x, exists j, carry score x rest !! j = Some x.
Proof.
  induction rest as [| y rest IH]; intros x; simpl.
  - by exists 0%nat.
  - destruct (score x >? score y).
    + destruct (IH x) as [j Hj]. by exists (S j).
    + by exists 0%nat.
Qed.

(** A slot value is found after the pass no more than one slot nearer the
    front. *)
Lemma carry_moves_back rest : forall x i a,
  rest !! i = Some a ->
  exists j, carry score x rest !! j = Some a /\ (i <= j)%nat.
Proof.
  induction rest as [| y rest IH]; intros x i a Hi; [done |]. simpl.
  destruct (score x >? score y).
  - destruct i as [| i]; simpl in Hi.
    + injection Hi as ->. by exists 0%nat.
    + destruct (IH x i a Hi) as (j & Hj & Hle). exists (S j). split; [done | lia].
  - destruct i as [| i]; simpl in Hi.
    + injection Hi as ->. destruct (carry_holds_carried rest a) as [j Hj].
      exists (S j). split; [done | lia].
    + destruct (IH y i a Hi) as (j & Hj & Hle). exists (S j). split; [done | lia].
Qed.

(** Carrying through two stretches of slots: what leaves the first
    stretch is carried through the second. *)
Lemma carry_app l1 : forall x l2,
  exists front m,
    carry score x l1 = front ++ [m] /\
    carry score x (l1 ++ l2) = front ++ carry score m l2.
Proof.
  induction l1 as [| y l1 IH]; intros x l2; simpl.
  - by exists [], x.
  - destruct (score x >? score y).
    + destruct (IH x l2) as (front & m & -> & ->). by exists (y :: front), m.
    + destruct (IH y l2) as (front & m & -> & ->). by exists (x :: front), m.
Qed.

Lemma ascending_cons x (l : list A) :
  ascending score l -> (forall b, b ∈ l -> score x <= score b) ->
  ascending score (x :: l).
Proof.
  intros Hl Hx. constructor; [done |].
  destruct l as [| y l]; constructor. apply Hx. left.
Qed.

(** Each pass adds a slot to the sorted tail. *)
Lemma adjacent_pass_sorted_tail k (l : list A) :
  sorted_tail score k l -> sorted_tail score (S k) (adjacent_pass score l).
Proof.
  intros (front & back & -> & Hlen & Hasc & Hle).
  destruct front as [| x l1].
  - exists [], back. cbn [app] in *.
    assert (adjacent_pass score back = back) as ->.
    { destruct back as [| y back]; simpl; [done |]. by apply carry_ascending. }
    split; [done |]. split; [lia |]. split; [done |]. done.
  - cbn [app adjacent_pass].
    destruct (carry_app l1 x back) as (front' & m & Hfront & ->).
    destruct (carry_last_worst score l1 x) as (worst & Hlast & Hworst).
    rewrite Hfront, last_snoc in Hlast. injection Hlast as <-.
    pose proof (carry_Permutation score l1 x) as Hperm. rewrite Hfront in Hperm.
    assert (m ∈ x :: l1) as Hm.
    { rewrite Hperm. apply elem_of_app. right. left. }
    assert (carry score m back = m :: back) as ->.
    { apply carry_ascending, ascending_cons; [done |].
      intros b Hb. by apply Hle. }
    exists front', (m :: back). repeat split.
    + rewrite !length_app in *. cbn [length] in *.
      pose proof (f_equal length Hfront) as Hl. rewrite carry_length, length_app in Hl.
      cbn [length] in Hl. lia.
    + apply ascending_cons; [done |]. intros b Hb. by apply Hle.
    + intros a b Ha Hb.
      assert (a ∈ x :: l1) as Ha'.
      { rewrite Hperm. apply elem_of_app. by left. }
      apply elem_of_cons in Hb as [-> | Hb]; [by apply Hworst | by apply Hle].
Qed.

Lemma iter_pass_sorted_tail k (l : list A) :
  sorted_tail score k (Nat.iter k (adjacent_pass score) l).
Proof.
  induction k as [| k IH]; simpl.
  - exists l, []. rewrite app_nil_r. repeat split; [constructor |].
    intros a b _ Hb. by apply elem_of_nil in Hb.
  - by apply adjacent_pass_sorted_tail.
Qed.

Lemma iter_pass_length k (l : list A) :
  length (Nat.iter k (adjacent_pass score) l) = length l.
Proof.
  induction k as [| k IH]; simpl; [done |]. by rewrite adjacent_pass_length.
Qed.

Lemma iter_pass_Permutation k (l : list A) :
  Permutation l (Nat.iter k (adjacent_pass score) l).
Proof.
  induction k as [| k IH]; simpl; [done |].
  by rewrite <- adjacent_pass_Permutation.
Qed.

Lemma exchanges_iter THREADS k : forall sp : list A,
  length sp = THREADS ->
  exchanges score THREADS k sp = Some (Nat.iter k (adjacent_pass score) sp).
Proof.
  induction k as [| k IH]; intros sp Hlen; [done |].
  cbn [exchanges]. rewrite exchange_adjacent_pass by done.
  cbn [mbind option_bind].
  rewrite IH by (by rewrite adjacent_pass_length).
  by rewrite Nat.iter_succ_r.
Qed.

End MoreExchangeFacts.

(** X9. One exchange pass returns the array unchanged exactly when its
    scores are in non-decreasing order. *)
Theorem exchange_fixed_iff_ascending {A : Type} (score : A -> Z) (THREADS : nat) (sp : list A) :
  length sp = THREADS ->
  exchange score THREADS sp = Some sp <-> ascending score sp.
Proof.
  intros Hlen. rewrite exchange_adjacent_pass by done.
  destruct sp as [| x rest]; simpl.
  - split; [intros _; constructor | done].
  - split.
    + intros [= Hc]. by apply carry_fixed.
    + intros Hs. f_equal. by apply carry_ascending.
Qed.

Lemma exchange_fixed_iff_ascending_witness :
  exchange Score 6 ascending6 = Some ascending6 <-> ascending Score ascending6.
Proof. apply exchange_fixed_iff_ascending. reflexivity. Defined.

(** X10. After one exchange pass slot 0 holds the better of the states that
    were in slots 0 and 1 (the state of slot 0 on a tie): the score of
    the coldest slot is the smaller of the two. *)
Theorem exchange_cold_slot {A : Type} (score : A -> Z) (THREADS : nat) (sp : list A) (a b : A) :
  length sp = THREADS ->
  sp !! 0%nat = Some a -> sp !! 1%nat = Some b ->
  exists sp',
    exchange score THREADS sp = Some sp'
    /\ sp' !! 0%nat = Some (if score a >? score b then b else a)
    /\ forall c, sp' !! 0%nat = Some c -> score c = Z.min (score a) (score b).
Proof.
  intros Hlen Ha Hb. rewrite exchange_adjacent_pass by done.
  destruct sp as [| x [| y rest]]; [done | done |].
  injection Ha as ->. injection Hb as ->. eexists. split; [done |].
  simpl. destruct (Z.gtb_spec (score a) (score b)); simpl.
  - split; [done |]. intros c [= <-]. lia.
  - split; [done |]. intros c [= <-]. lia.
Qed.

Lemma exchange_cold_slot_witness :
  exists sp',
    exchange Score 6 mixed6 = Some sp'
    /\ sp' !! 0%nat = Some {| Score := 2; World := 498 |}
    /\ forall c, sp' !! 0%nat = Some c -> Score c = Z.min 9 2.
Proof.
  apply (exchange_cold_slot Score 6 mixed6
           {| Score := 9; World := 491 |} {| Score := 2; World := 498 |});
    reflexivity.
Defined.

(** X11. One exchange pass moves no state more than one slot towards slot
    0: the state of slot [i] is found after the pass in slot [i - 1] or
    later. *)
Theorem exchange_advances_one_slot {A : Type} (score : A -> Z) (THREADS : nat) (sp : list A)
    (i : nat) (a : A) :
  length sp = THREADS ->
  sp !! i = Some a ->
  exists sp' j,
    exchange score THREADS sp = Some sp'
    /\ sp' !! j = Some a
    /\ (i <= j + 1)%nat.
Proof.
  intros Hlen Hi. rewrite exchange_adjacent_pass by done.
  destruct sp as [| x rest]; [done |]. simpl.
  destruct i as [| i]; simpl in Hi.
  - injection Hi as ->. destruct (carry_holds_carried score rest a) as [j Hj].
    exists (carry score a rest), j. split; [done |]. split; [done | lia].
  - destruct (carry_moves_back score rest x i a Hi) as (j & Hj & Hle).
    exists (carry score x rest), j. split; [done |]. split; [done | lia].
Qed.

Lemma exchange_advances_one_slot_witness :
  exists sp' j,
    exchange Score 6 mixed6 = Some sp'
    /\ sp' !! j = Some {| Score := 1; World := 499 |}
    /\ (4 <= j + 1)%nat.
Proof. apply exchange_advances_one_slot; reflexivity. Defined.

(** X12. [THREADS - 1] exchange passes in a row, the states untouched in
    between, leave the slots in ascending order of score, and a
    permutation of what they were. *)
Theorem exchanges_sort {A : Type} (score : A -> Z) (THREADS : nat) (sp : list A) :
  length sp = THREADS ->
  exists sp',
    exchanges score THREADS (THREADS - 1) sp = Some sp'
    /\ ascending score sp'
    /\ Permutation sp sp'.
Proof.
  intros Hlen. rewrite exchanges_iter by done.
  eexists. split; [done |]. split; [| apply iter_pass_Permutation].
  destruct (iter_pass_sorted_tail score (THREADS - 1) sp)
    as (front & back & Heq & Hback & Hasc & Hle).
  rewrite Heq.
  pose proof (f_equal length Heq) as Hl.
  rewrite iter_pass_length, length_app in Hl.
  rewrite iter_pass_length in Hback.
  destruct front as [| x [| y front]]; simpl in Hl.
  - done.
  - simpl. apply ascending_cons; [done |]. intros b Hb. apply Hle; [left | done].
  - lia.
Qed.

Lemma exchanges_sort_witness :
  exists sp',
    exchanges Score 6 (6 - 1) mixed6 = Some sp'
    /\ ascending Score sp'
    /\ Permutation mixed6 sp'.
Proof. apply exchanges_sort. reflexivity. Defined.

(** ** Runs from the initial slots *)

Section RunFacts.
Variable P : Program.

Lemma candidate_World d s :
  World (candidate P d s) = Int32.wrap (World s + (int31n d - SHIFT P)).
Proof. unfold candidate. by rewrite SetScore_World, Mutate_World. Qed.

(** What holds of every received state and is kept by an iteration holds
    of every report. *)
Lemma chains_from_preserve (ok : Draw -> Prop) (Q R : State -> Prop) :
  (forall index d s s', ok d -> Q s -> chain P index d s = Some s' -> R s') ->
  forall slots index draws reports,
    Forall ok draws -> Forall Q slots ->
    chains_from P index slots draws = Some reports ->
    Forall R reports.
Proof.
  intros Hstep. induction slots as [| s slots IH]; intros index draws reports Hd Hs; simpl.
  - by intros [= <-].
  - destruct draws as [| d draws]; [done |].
    apply Forall_cons in Hs as [Hs Hrest]. apply Forall_cons in Hd as [Hd Hdrest].
    destruct (chain P index d s) as [s' |] eqn:Ec; simpl; [| done].
    destruct (chains_from P (S index) slots draws) as [rest |] eqn:E; simpl; [| done].
    intros [= <-]. constructor; [by eapply Hstep | by eapply IH].
Qed.

(** What a round that ends the hub returns. *)
Lemma round_Success slots draws n s ch :
  length slots = THREADS P ->
  round P slots draws = Some (Success n s ch) ->
  exists reports,
    chains P slots draws = Some reports
    /\ reports !! n = Some s /\ Score s = 0 /\ (n < THREADS P)%nat.
Proof.
  intros Hlen. unfold round.
  destruct (chains P slots draws) as [reports |] eqn:Ec; simpl; [| done].
  pose proof (chains_from_length _ _ _ _ _ Ec) as Hrl. rewrite Hlen in Hrl.
  destruct (first_zero reports) as [Hnz | (before & z & later & -> & Hb & Hs)].
  - by rewrite hub_round_resumes.
  - rewrite hub_round_succeeds by done. intros [= <- <- <-].
    exists (before ++ z :: later). split; [done |]. split; [| split; [done |]].
    + by apply list_lookup_middle.
    + rewrite length_app in Hrl. simpl in Hrl. lia.
Qed.

(** A run that ends the hub does so in a round from reachable slots. *)
Lemma run_Success rounds : forall slots n s ch,
  reachable P slots ->
  run P slots rounds = Some (Success n s ch) ->
  exists slots' draws,
    reachable P slots' /\ round P slots' draws = Some (Success n s ch).
Proof.
  induction rounds as [| draws rounds IH]; intros slots n s ch Hr; simpl; [done |].
  destruct (round P slots draws) as [[n' s' ch' | mid] |] eqn:E; simpl; [| | done].
  - intros [= <- <- <-]. eauto.
  - intros Hrun. eapply IH; [| exact Hrun]. by eapply reachable_round.
Qed.

Lemma chain_World_in_range index d s s' :
  World_in_range s -> chain P index d s = Some s' -> World_in_range s'.
Proof.
  intros Hs Hc. destruct (chain_output _ _ _ _ _ Hc) as [-> | ->]; [| done].
  unfold World_in_range. rewrite candidate_World. apply Int32Facts.wrap_in_range.
Qed.

Lemma reachable_World_in_range slots :
  reachable P slots -> Forall World_in_range slots.
Proof.
  induction 1 as [| slots draws slots' Hreach IH Hr].
  - apply Forall_replicate. unfold World_in_range, NewState.
    rewrite SetScore_World. simpl. int32_range.
  - destruct (round_Resume _ _ _ _ (reachable_length _ _ Hreach) Hr)
      as (reports & Hc & _ & ->).
    rewrite <- (adjacent_pass_Permutation Score reports).
    eapply (chains_from_preserve (fun _ => True) World_in_range World_in_range);
      [| | exact IH | exact Hc].
    + intros index d s s' _. apply chain_World_in_range.
    + apply Forall_true. done.
Qed.

End RunFacts.

(** A run that ends the hub ends it on the target. *)
Lemma run_Success_target (P : Program) rounds n s ch :
  Int32.in_range (TARGET P) ->
  run P (main_slots P) rounds = Some (Success n s ch) ->
  World s = TARGET P /\ Score s = 0 /\ (n < THREADS P)%nat.
Proof.
  intros Ht Hrun.
  destruct (run_Success P rounds _ _ _ _ (reachable_main P) Hrun)
    as (slots & draws & Hreach & Hround).
  destruct (round_Success P _ _ _ _ _ (reachable_length _ _ Hreach) Hround)
    as (reports & Hc & Hn & Hs & Hlt).
  split; [| done].
  assert (consistent P s) as Hcons.
  { pose proof (chains_from_consistent P _ _ _ _ (reachable_consistent _ _ Hreach) Hc) as Hall.
    by eapply Forall_lookup_1 in Hall. }
  assert (World_in_range s) as Hw.
  { assert (Forall World_in_range reports) as Hall.
    { eapply (chains_from_preserve P (fun _ => True) World_in_range World_in_range);
        [| | apply (reachable_World_in_range P _ Hreach) | exact Hc].
      - intros index d s0 s' _. apply chain_World_in_range.
      - apply Forall_true. done. }
    by eapply Forall_lookup_1 in Hall. }
  apply scoring_function_zero; [done | done |]. by rewrite <- Hcons.
Qed.

(** X13. Whatever the draws, when a run from the initial slots ends with
    the hub's return, the state returned has the target as payload and
    score 0, and the thread number is that of a chain. *)
Theorem success_is_the_target (P : Program) (rounds : list (list Draw))
    (n : nat) (s : State) (ch : list chan) :
  Int32.in_range (TARGET P) ->
  run P (main_slots P) rounds = Some (Success n s ch) ->
  World s = TARGET P /\ Score s = 0 /\ (n < THREADS P)%nat.
Proof. apply run_Success_target. Qed.

Lemma success_is_the_target_witness :
  World hit = TARGET metropolis_go /\ Score hit = 0 /\ (0 < THREADS metropolis_go)%nat.
Proof.
  apply (success_is_the_target metropolis_go lucky_run 0 hit (None :: replicate 5 (Some near))).
  - by vm_compute.
  - reflexivity.
Defined.



(** ** How far a run can get *)

Section Displacement.
Variable P : Program.
Hypothesis shift_ok : 0 <= SHIFT P < SPAN P.

Lemma within_mono k k' s : 0 <= k <= k' -> within P k s -> within P k' s.
Proof. unfold within. intros Hk Hs. nia. Qed.

Lemma chain_within k index d s s' :
  0 <= k ->
  SHIFT P * (k + 1) <= 2147483648 ->
  (SPAN P - SHIFT P - 1) * (k + 1) <= 2147483647 ->
  Draw_ok P d -> within P k s ->
  chain P index d s = Some s' -> within P (k + 1) s'.
Proof.
  intros Hk Hlo Hhi (Hn & _) Hs Hc.
  destruct (chain_output _ _ _ _ _ Hc) as [-> | ->].
  - unfold within in *. rewrite candidate_World.
    rewrite Int32Facts.wrap_id; [nia |].
    unfold Int32.in_range, Int32.min_int, Int32.max_int. nia.
  - apply (within_mono k); [lia | done].
Qed.

Lemma run_within rounds : forall k slots o,
  0 <= k ->
  length slots = THREADS P ->
  Forall (within P k) slots ->
  Forall (Forall (Draw_ok P)) rounds ->
  SHIFT P * (k + Z.of_nat (length rounds)) <= 2147483648 ->
  (SPAN P - SHIFT P - 1) * (k + Z.of_nat (length rounds)) <= 2147483647 ->
  run P slots rounds = Some o ->
  match o with
  | Success _ s _ => within P (k + Z.of_nat (length rounds)) s
  | Resume slots' => Forall (within P (k + Z.of_nat (length rounds))) slots'
  end.
Proof.
  induction rounds as [| draws rounds IH]; intros k slots o Hk Hlen Hs Hd Hlo Hhi.
  - simpl. intros [= <-]. by rewrite Z.add_0_r.
  - apply Forall_cons in Hd as [Hd Hdrest].
    cbn [length] in *. rewrite Nat2Z.inj_succ in *.
    assert (forall reports, chains P slots draws = Some reports ->
              Forall (within P (k + 1)) reports) as Hreports.
    { intros reports Hc.
      eapply (chains_from_preserve P (Draw_ok P) (within P k) (within P (k + 1)));
        [| exact Hd | exact Hs | exact Hc].
      intros index d s s' Hok Hw. apply chain_within; [lia | nia | nia | done | done]. }
    cbn [run].
    destruct (round P slots draws) as [[n s ch | mid] |] eqn:E; cbn [mbind option_bind];
      [| | done].
    + intros [= <-].
      destruct (round_Success P _ _ _ _ _ Hlen E) as (reports & Hc & Hn & _).
      apply (within_mono (k + 1)); [lia |].
      specialize (Hreports _ Hc). by eapply Forall_lookup_1 in Hreports.
    + intros Hrun.
      destruct (round_Resume P _ _ _ Hlen E) as (reports & Hc & _ & ->).
      replace (k + Z.succ (Z.of_nat (length rounds)))
        with ((k + 1) + Z.of_nat (length rounds)) by lia.
      apply (IH (k + 1) (adjacent_pass Score reports)); try done; try lia.
      * rewrite adjacent_pass_length. apply chains_from_length in Hc. congruence.
      * rewrite <- (adjacent_pass_Permutation Score reports). by apply Hreports.
Qed.

End Displacement.

Lemma main_slots_within (P : Program) : Forall (within P 0) (main_slots P).
Proof.
  apply Forall_replicate. unfold within, NewState. rewrite SetScore_World. simpl. lia.
Qed.

(** X15. The payload moves by at most [SHIFT] down and [SPAN - SHIFT - 1]
    up in a round, so a run that ends with the hub's return is long
    enough for the target to be in reach of the initial payload 0. *)
Theorem success_needs_rounds (P : Program) (rounds : list (list Draw))
    (n : nat) (s : State) (ch : list chan) :
  Int32.in_range (TARGET P) ->
  0 <= SHIFT P < SPAN P ->
  Forall (Forall (Draw_ok P)) rounds ->
  SHIFT P * Z.of_nat (length rounds) <= 2147483648 ->
  (SPAN P - SHIFT P - 1) * Z.of_nat (length rounds) <= 2147483647 ->
  run P (main_slots P) rounds = Some (Success n s ch) ->
  - (SHIFT P * Z.of_nat (length rounds)) <= TARGET P
     <= (SPAN P - SHIFT P - 1) * Z.of_nat (length rounds).
Proof.
  intros Ht Hshift Hd Hlo Hhi Hrun.
  destruct (run_Success_target P rounds n s ch Ht Hrun) as (<- & _ & _).
  pose proof (run_within P Hshift rounds 0 (main_slots P) _ ltac:(lia)
                (main_slots_length P) (main_slots_within P) Hd Hlo Hhi Hrun) as Hw.
  simpl in Hw. exact Hw.
Qed.

Lemma lucky_run_ok : Forall (Forall (Draw_ok metropolis_go)) lucky_run.
Proof.
  apply Forall_cons_2; [| apply Forall_nil_2].
  unfold lucky_draws. apply Forall_cons_2; [by vm_compute |].
  apply Forall_replicate. by vm_compute.
Defined.

Lemma success_needs_rounds_witness :
  - (SHIFT metropolis_go * 1) <= TARGET metropolis_go
     <= (SPAN metropolis_go - SHIFT metropolis_go - 1) * 1.
Proof.
  apply (success_needs_rounds metropolis_go lucky_run 0 hit (None :: replicate 5 (Some near))).
  - by vm_compute.
  - simpl. lia.
  - apply lucky_run_ok.
  - simpl. lia.
  - simpl. lia.
  - reflexivity.
Defined.

(** X16. The revision that searches for 50000 in steps of at most 49 never
    returns from the hub within its first 1020 rounds. *)
Theorem part_000_no_early_success
    (rounds : list (list Draw)) (n : nat) (s : State) (ch : list chan) :
  Forall (Forall (Draw_ok part_000)) rounds ->
  (length rounds <= 1020)%nat ->
  run part_000 (main_slots part_000) rounds <> Some (Success n s ch).
Proof.
  intros Hd Hlen Hrun.
  assert (Int32.in_range (TARGET part_000)) as Ht by (by vm_compute).
  destruct (run_Success_target part_000 rounds n s ch Ht Hrun) as (Hw & _ & _).
  pose proof (run_within part_000 ltac:(simpl; lia) rounds 0 (main_slots part_000) _
                ltac:(lia) (main_slots_length part_000) (main_slots_within part_000) Hd
                ltac:(simpl; lia) ltac:(simpl; lia) Hrun) as Hb.
  simpl in Hb. unfold within in Hb. rewrite Hw in Hb. simpl in Hb. lia.
Qed.

Lemma part_000_no_early_success_witness :
  run part_000 (main_slots part_000) small_steps
  <> Some (Success 0 {| Score := 0; World := 50000 |} []).
Proof.
  apply part_000_no_early_success.
  - apply Forall_cons_2; [| apply Forall_nil_2]. apply Forall_replicate. by vm_compute.
  - simpl. lia.
Defined.



(** ** A round of chains on the heap *)

Import Pointers.

Section HeapRounds.
Variable P : Program.

Lemma chain_metropolis_go_computes : computes_chain P (chain_metropolis_go P).
Proof.
  intros index d p s h Hp. rewrite (chain_metropolis_go_refines P index d p s h Hp).
  destruct (chain P index d s) as [s' |]; simpl; [| done].
  exists p, (<[p := s']> h). split; [done |]. split; [apply lookup_insert_eq |].
  split; [by left |]. split.
  - intros q Hq. destruct (decide (q = p)) as [-> | Hne].
    + rewrite lookup_insert_eq. eauto.
    + by rewrite lookup_insert_ne.
  - intros q Hq _. by rewrite lookup_insert_ne.
Qed.

Lemma chain_part_000_computes : computes_chain P (chain_part_000 P).
Proof.
  intros index d p s h Hp. unfold chain_part_000. rewrite Hp. simpl.
  set (o := fresh (dom h)).
  assert (h !! o = None) as Ho.
  { apply not_elem_of_dom. apply is_fresh. }
  assert (o <> p) as Hne by (intros ->; congruence).
  assert (<[o := s]> h !! p = Some s) as Hp' by (by rewrite lookup_insert_ne).
  rewrite (call_Some _ _ _ _ Hp'). simpl.
  rewrite (call_Some _ _ (Mutate P (int31n d) s)) by apply lookup_insert_eq. simpl.
  rewrite lookup_insert_eq. simpl. rewrite insert_insert_eq.
  rewrite lookup_insert_ne by done. rewrite lookup_insert_eq. simpl.
  rewrite chain_cases. unfold candidate.
  set (h' := <[p := SetScore P (Mutate P (int31n d) s)]> (<[o := s]> h)).
  assert (forall q, is_Some (h !! q) -> is_Some (h' !! q)) as Hkeep.
  { intros q [x Hx]. unfold h'. destruct (decide (q = p)) as [-> | Hq].
    - rewrite lookup_insert_eq. eauto.
    - rewrite lookup_insert_ne by done.
      rewrite lookup_insert_ne; [eauto |]. intros ->. congruence. }
  assert (forall q, q <> p -> is_Some (h !! q) -> h' !! q = h !! q) as Hframe.
  { intros q Hq [x Hx]. unfold h'. rewrite lookup_insert_ne by done.
    rewrite lookup_insert_ne; [done |]. intros ->. congruence. }
  assert (h' !! p = Some (SetScore P (Mutate P (int31n d) s))) as Hnew
    by apply lookup_insert_eq.
  assert (h' !! o = Some s) as Hold.
  { unfold h'. rewrite lookup_insert_ne by done. apply lookup_insert_eq. }
  destruct (_ >? _).
  - destruct (Heat P !! index) as [ht |]; simpl; [| done].
    destruct (Qgtb _ _).
    + exists o, h'. repeat (split; [done |]). split; [by right |]. done.
    + exists p, h'. repeat (split; [done |]). split; [by left |]. done.
  - exists p, h'. repeat (split; [done |]). split; [by left |]. done.
Qed.

(** A round of chains on the heap computes the reports of [chains], keeps
    the slots on distinct states and touches nothing else. *)
Lemma chains_on_heap_computes body :
  computes_chain P body ->
  forall slots index draws vals (h : Pointers.heap),
    NoDup slots -> points_to h slots vals ->
    match chains_from P index vals draws with
    | None => chains_on_heap body index slots draws h = None
    | Some reports =>
        exists slots' h',
          chains_on_heap body index slots draws h = Some (slots', h')
          /\ points_to h' slots' reports
          /\ NoDup slots'
          /\ (forall q, q ∈ slots' -> q ∈ slots \/ h !! q = None)
          /\ (forall q, is_Some (h !! q) -> is_Some (h' !! q))
          /\ (forall q, q ∉ slots -> is_Some (h !! q) -> h' !! q = h !! q)
    end.
Proof.
  intros Hbody. induction slots as [| p slots IH]; intros index draws vals h Hnd Hpt.
  - apply Forall2_nil_inv_l in Hpt as ->. simpl.
    exists [], h. repeat split; try done; by constructor.
  - apply Forall2_cons_inv_l in Hpt as (s & vals' & Hp & Hpt & ->).
    apply NoDup_cons in Hnd as [Hnotin Hnd]. simpl.
    destruct draws as [| d draws]; [done |].
    specialize (Hbody index d p s h Hp).
    destruct (chain P index d s) as [s1 |]; simpl; [| by rewrite Hbody].
    destruct Hbody as (p1 & h1 & Hb & Hp1 & Horigin & Hkeep & Hframe).
    rewrite Hb. simpl.
    assert (points_to h1 slots vals') as Hpt1.
    { apply Forall2_same_length_lookup_2; [by eapply Forall2_length |].
      intros i q v Hi Hv.
      pose proof (Forall2_lookup_lr _ _ _ _ _ _ Hpt Hi Hv) as Hq.
      assert (q ≠ p) as Hne.
      { intros ->. apply Hnotin. by eapply list_elem_of_lookup_2. }
      rewrite Hframe; [done | done | by rewrite Hq]. }
    assert (p1 ∉ slots) as Hp1notin.
    { intros Hin. destruct Horigin as [-> | Hnone]; [done |].
      apply list_elem_of_lookup in Hin as [i Hi].
      destruct (Forall2_lookup_l _ _ _ _ _ Hpt Hi) as (v & _ & Hv). congruence. }
    specialize (IH (S index) draws vals' h1 Hnd Hpt1).
    destruct (chains_from P (S index) vals' draws) as [rest |]; simpl.
    + destruct IH as (slots' & h' & Hc & Hpt' & Hnd' & Horigin' & Hkeep' & Hframe').
      rewrite Hc. simpl. exists (p1 :: slots'), h'. split; [done |].
      assert (h' !! p1 = Some s1) as Hp1'.
      { rewrite Hframe'; [done | done | by rewrite Hp1]. }
      split; [by constructor |]. split.
      { constructor; [| done]. intros Hin.
        destruct (Horigin' _ Hin) as [? | Hnone]; [done | congruence]. }
      split.
      { intros q Hq. apply elem_of_cons in Hq as [-> | Hq].
        - destruct Horigin as [-> | ?]; [left; left | by right].
        - destruct (Horigin' _ Hq) as [? | Hnone]; [left; by right |].
          destruct (h !! q) as [v |] eqn:Ev; [| by right].
          exfalso. destruct (Hkeep q ltac:(eauto)) as [v' Hv']. congruence. }
      split.
      { intros q Hq. by apply Hkeep', Hkeep. }
      intros q Hq Hal. apply not_elem_of_cons in Hq as [Hqp Hq].
      rewrite Hframe'; [by apply Hframe | done |].
      rewrite Hframe by done. done.
    + by rewrite IH.
Qed.

(** [metropolis.go]'s body reports the pointer it received and allocates
    nothing. *)
Lemma chain_metropolis_go_in_place index d p (h : Pointers.heap) p' h' :
  chain_metropolis_go P index d p h = Some (p', h') -> p' = p /\ dom h' = dom h.
Proof.
  destruct (h !! p) as [s |] eqn:Hp.
  - rewrite (chain_metropolis_go_refines P index d p s h Hp).
    destruct (chain P index d s) as [s' |]; simpl; [| done].
    intros [= <- <-]. split; [done |]. apply dom_insert_lookup_L. eauto.
  - unfold chain_metropolis_go. by rewrite Hp.
Qed.

Lemma chains_on_heap_in_place slots : forall index draws (h : Pointers.heap) slots' h',
  chains_on_heap (chain_metropolis_go P) index slots draws h = Some (slots', h') ->
  slots' = slots /\ dom h' = dom h.
Proof.
  induction slots as [| p slots IH]; intros index draws h slots' h'; simpl.
  - by intros [= <- <-].
  - destruct draws as [| d draws]; [done |].
    destruct (chain_metropolis_go P index d p h) as [[p1 h1] |] eqn:Eb; simpl; [| done].
    destruct (chains_on_heap (chain_metropolis_go P) (S index) slots draws h1)
      as [[rest h2] |] eqn:Ec; simpl; [| done].
    intros [= <- <-].
    destruct (chain_metropolis_go_in_place _ _ _ _ _ _ Eb) as [-> Hd1].
    destruct (IH _ _ _ _ _ Ec) as [-> Hd2]. split; [done | congruence].
Qed.

End HeapRounds.

(** X18. Through pointers, a round of [metropolis.go]'s chains on slots
    holding distinct pointers computes the reports of [chains] behind the
    same pointers, allocates nothing and changes no state outside the
    slots. *)
Theorem round_of_chains_in_place (P : Program) (slots : list nat) (draws : list Draw)
    (vals reports : list State) (h : Pointers.heap) :
  NoDup slots ->
  points_to h slots vals ->
  chains P vals draws = Some reports ->
  exists h',
    chains_on_heap (chain_metropolis_go P) 0 slots draws h = Some (slots, h')
    /\ points_to h' slots reports
    /\ dom h' = dom h
    /\ forall q, q ∉ slots -> h' !! q = h !! q.
Proof.
  intros Hnd Hpt Hc.
  pose proof (chains_on_heap_computes P _ (chain_metropolis_go_computes P)
                slots 0%nat draws vals h Hnd Hpt) as Hround.
  unfold chains in Hc. rewrite Hc in Hround.
  destruct Hround as (slots' & h' & Hrun & Hpt' & _ & _ & _ & Hframe).
  destruct (chains_on_heap_in_place P _ _ _ _ _ _ Hrun) as [-> Hdom].
  exists h'. split; [done |]. split; [done |]. split; [done |].
  intros q Hq. destruct (h !! q) as [v |] eqn:Ev.
  - rewrite Hframe; [done | done | by rewrite Ev].
  - apply not_elem_of_dom. rewrite Hdom. by apply not_elem_of_dom.
Qed.

Lemma two_states_point : points_to two_states [0%nat; 1%nat] [start; start].
Proof. repeat constructor. Defined.

Lemma two_slots_NoDup : NoDup [0%nat; 1%nat].
Proof. apply (NoDup_seq 0 2). Defined.

Lemma round_of_chains_in_place_witness :
  exists h',
    chains_on_heap (chain_metropolis_go metropolis_go) 0 [0%nat; 1%nat] two_draws two_states
      = Some ([0%nat; 1%nat], h')
    /\ points_to h' [0%nat; 1%nat] [start; near]
    /\ dom h' = dom two_states
    /\ forall q, q ∉ [0%nat; 1%nat] -> h' !! q = two_states !! q.
Proof.
  apply (round_of_chains_in_place metropolis_go [0%nat; 1%nat] two_draws [start; start]).
  - apply two_slots_NoDup.
  - apply two_states_point.
  - reflexivity.
Defined.

(** X19. Through pointers, a round of the other revision's chains on slots
    holding distinct pointers computes the reports of [chains]; the
    pointers reported are again distinct, each the one received or a newly
    allocated one, and no state outside the slots is changed. *)
Theorem round_of_chains_fresh_copies (P : Program) (slots : list nat) (draws : list Draw)
    (vals reports : list State) (h : Pointers.heap) :
  NoDup slots ->
  points_to h slots vals ->
  chains P vals draws = Some reports ->
  exists slots' h',
    chains_on_heap (chain_part_000 P) 0 slots draws h = Some (slots', h')
    /\ points_to h' slots' reports
    /\ NoDup slots'
    /\ (forall q, q ∈ slots' -> q ∈ slots \/ h !! q = None)
    /\ (forall q, q ∉ slots -> is_Some (h !! q) -> h' !! q = h !! q).
Proof.
  intros Hnd Hpt Hc.
  pose proof (chains_on_heap_computes P _ (chain_part_000_computes P)
                slots 0%nat draws vals h Hnd Hpt) as Hround.
  unfold chains in Hc. rewrite Hc in Hround.
  destruct Hround as (slots' & h' & Hrun & Hpt' & Hnd' & Horigin & _ & Hframe).
  exists slots', h'. done.
Qed.

Lemma round_of_chains_fresh_copies_witness :
  exists slots' h',
    chains_on_heap (chain_part_000 metropolis_go) 0 [0%nat; 1%nat] two_draws two_states
      = Some (slots', h')
    /\ points_to h' slots' [start; near]
    /\ NoDup slots'
    /\ (forall q, q ∈ slots' -> q ∈ [0%nat; 1%nat] \/ two_states !! q = None)
    /\ (forall q, q ∉ [0%nat; 1%nat] -> is_Some (two_states !! q) -> h' !! q = two_states !! q).
Proof.
  apply (round_of_chains_fresh_copies metropolis_go [0%nat; 1%nat] two_draws [start; start]).
  - apply two_slots_NoDup.
  - apply two_states_point.
  - reflexivity.
Defined.
